(** * i3pystatus: the streaming protocol engine

    A shallow embedding of [i3pystatus/__init__.py] (Python 3) and the
    properties of its line channel, standalone simulator, JSON tick
    pipeline, class finder and module registry.

    Conventions of the embedding:
    - a Python [str] is a [string] whose characters are code points below 256;
    - a Python [int] is a [Z] (unbounded, no wrap-around);
    - a raised exception is a value of [exn]; code that can raise runs in
      the state-and-exception monad [M];
    - objects that are mutated through shared references (module instances,
      the class-level list [i3pystatus.modules]) live in an explicit store. *)

From Stdlib Require Import ZArith Ascii String.
From Stdlib Require DecimalString DecimalPos DecimalFacts.
From stdpp Require Import base list gmap strings.

Local Open Scope Z_scope.
Local Set Warnings "-register-all".
Local Set Warnings "-clear-no-such-hyp".

(* ===================================================================== *)
(** * Python strings *)
(* ===================================================================== *)

(** The double quote and the line feed, as one-character strings. *)
Definition dq : string := String "034"%char EmptyString.
Definition nl : string := String "010"%char EmptyString.

(** [str.isspace] on code points below 256: the ASCII controls 9-13 and
    28-31, the space, NEL (133) and the no-break space (160). *)
Definition py_isspace (c : ascii) : bool :=
  let n := nat_of_ascii c in
  ((9 <=? n) && (n <=? 13) || (28 <=? n) && (n <=? 31)
   || (n =? 32) || (n =? 133) || (n =? 160))%nat.

Fixpoint lstrip (s : string) : string :=
  match s with
  | EmptyString => EmptyString
  | String c r => if py_isspace c then lstrip r else s
  end.

Definition rstrip (s : string) : string := String.rev (lstrip (String.rev s)).

(** [s.strip()]: whitespace removed at both ends. *)
Definition strip (s : string) : string := rstrip (lstrip s).

(** [not line] for a string: true exactly for the empty string. *)
Definition str_is_empty (s : string) : bool :=
  match s with EmptyString => true | String _ _ => false end.

(** [line.startswith(",")] *)
Definition startswith_comma (s : string) : bool :=
  match s with String ","%char _ => true | _ => false end.

(** [line[1:]] *)
Definition str_tail (s : string) : string :=
  match s with EmptyString => EmptyString | String _ r => r end.

(** [sep.join(parts)] *)
Fixpoint join (sep : string) (parts : list string) : string :=
  match parts with
  | [] => EmptyString
  | [p] => p
  | p :: ps => p +:+ sep +:+ join sep ps
  end.

(* ===================================================================== *)
(** * Python lists and tuples *)
(* ===================================================================== *)

(** The index at which [list.insert(i, x)] places [x] in a list of length
    [n]: a negative index counts from the end, and an index outside the
    list is clamped to its nearest end. This is [list.insert] for an index
    that fits a machine word; beyond that CPython raises [OverflowError],
    which is not embedded ([fits_index] below states the bound). *)
Definition insert_index (i : Z) (n : nat) : nat :=
  if i <? 0 then Z.to_nat (i + Z.of_nat n)
  else Nat.min (Z.to_nat i) n.

(** [l.insert(i, x)]: the elements from the insertion index on move one
    place to the right. *)
Definition list_insert {A} (i : Z) (x : A) (l : list A) : list A :=
  let k := insert_index i (length l) in
  take k l ++ x :: drop k l.

(** Where the element at index [a] of a list is after an insertion at
    index [k]. *)
Definition shifted (k a : nat) : nat :=
  if decide (a < k)%nat then a else S a.

(** [t[i]] on a tuple: a negative index counts from the end; an index
    outside the tuple raises [IndexError] (see [exn] below), which the
    caller of [tuple_get] turns into the exception. *)
Definition tuple_get {A} (t : list A) (i : Z) : option A :=
  let n := Z.of_nat (length t) in
  let k := if i <? 0 then i + n else i in
  if (0 <=? k) && (k <? n) then t !! Z.to_nat k else None.

(* ===================================================================== *)
(** * Classes, exceptions and the result monad *)
(* ===================================================================== *)

(** A class object: its name, which is taken to identify it, and its
    direct bases ([object] is left implicit). *)
Inductive pyclass := Class (name : string) (bases : list pyclass).

Definition cls_name (c : pyclass) : string := match c with Class n _ => n end.
Definition cls_bases (c : pyclass) : list pyclass :=
  match c with Class _ bs => bs end.

(** Identity of class objects. *)
Fixpoint pyclass_eqb (c d : pyclass) : bool :=
  match c, d with
  | Class n bs, Class m ds =>
      bool_decide (n = m)
      && (fix all2 (l1 l2 : list pyclass) : bool :=
            match l1, l2 with
            | [], [] => true
            | x :: l1', y :: l2' => pyclass_eqb x y && all2 l1' l2'
            | _, _ => false
            end) bs ds
  end.

(** [issubclass(c, base)]: reflexive, and inherited through the bases. *)
Fixpoint issubclass (c base : pyclass) : bool :=
  match c with
  | Class _ bs =>
      pyclass_eqb c base || existsb (fun b => issubclass b base) bs
  end.

(** The exceptions the program raises or lets through.
    [ConfigurationError] carries the arguments of its constructor, from
    which [ConfigurationError.__init__] builds the message:
    the module name, then one clause per argument that is given. *)
Inductive exn :=
| EOFError
| KeyboardInterrupt
| ValueError (msg : string)
| JSONDecodeError (msg : string)
| TypeError (msg : string)
| NameError (msg : string)
| AttributeError (msg : string)
| IndexError (msg : string)
| ConfigurationError (module : string) (key : option string)
    (missing : option (gset string))
    (ambigious_classes : option (list pyclass)) (invalid : bool)
| Unmodelled (what : string).
(** [Unmodelled] is not a Python exception: it marks an input that lies
    outside the fragment of the language or of [json] that is embedded here
    (floating-point literals, code points above 255). No theorem draws a
    conclusion about the program from it. *)

Inductive result (A : Type) :=
| Ok (a : A)
| Raise (e : exn).
Arguments Ok {A} a.
Arguments Raise {A} e.

Definition result_bind {A B} (r : result A) (k : A → result B) : result B :=
  match r with Ok a => k a | Raise e => Raise e end.

(** Computations over a mutable state [S] that may raise: the state is
    returned in both cases, since effects that happened before the
    exception stay. *)
Definition M (S A : Type) : Type := S → result A * S.

Definition ret {S A} (a : A) : M S A := fun s => (Ok a, s).
Definition raise {S A} (e : exn) : M S A := fun s => (Raise e, s).
Definition bind {S A B} (m : M S A) (k : A → M S B) : M S B :=
  fun s => match m s with
           | (Ok a, s') => k a s'
           | (Raise e, s') => (Raise e, s')
           end.
Definition lift {S A} (r : result A) : M S A := fun s => (r, s).
Definition get {S} : M S S := fun s => (Ok s, s).
Definition put {S} (s : S) : M S unit := fun _ => (Ok tt, s).

(** [try: m except E: h] for the exceptions selected by [catches]. *)
Definition try_except {S A} (m : M S A) (catches : exn → bool) (h : M S A)
  : M S A :=
  fun s => match m s with
           | (Raise e, s') => if catches e then h s' else (Raise e, s')
           | r => r
           end.

Declare Scope py_scope.
Delimit Scope py_scope with py.
Notation "'let*' x ':=' m 'in' k" :=
  (bind m (fun x => k))
  (at level 10, x name, m at level 100, k at level 200) : py_scope.
Local Open Scope py_scope.

Definition is_EOFError (e : exn) : bool :=
  match e with EOFError => true | _ => false end.
Definition is_KeyboardInterrupt (e : exn) : bool :=
  match e with KeyboardInterrupt => true | _ => false end.

(* ===================================================================== *)
(** * The [json] library: values, [json.dumps], [json.loads] *)
(* ===================================================================== *)

(** What [json.loads] returns: [None], [bool], [int], [str], [list] and
    [dict]. A [dict] keeps its keys in insertion order. Floating-point
    numbers are outside the embedding. *)
Inductive json :=
| JNull
| JBool (b : bool)
| JInt (z : Z)
| JStr (s : string)
| JArr (items : list json)
| JObj (pairs : list (string * json)).

(** [d[k] = v] on a dict: an existing key keeps its place. *)
Fixpoint dict_set {V} (k : string) (v : V) (d : list (string * V))
  : list (string * V) :=
  match d with
  | [] => [(k, v)]
  | (k', v') :: d' =>
      if bool_decide (k' = k) then (k, v) :: d' else (k', v') :: dict_set k v d'
  end.

(** ** Serialisation *)

Definition hex_digit (n : nat) : ascii :=
  ascii_of_nat (if (n <? 10)%nat then 48 + n else 87 + n)%nat.

(** One character of a string under [ensure_ascii=True]: the backslash and
    the quote are escaped, the five short escapes are used, and every other
    character outside the range from space to tilde becomes [\u00xx]. *)
Definition escape_char (c : ascii) : string :=
  let n := nat_of_ascii c in
  if (n =? 34)%nat then "\" +:+ dq
  else if (n =? 92)%nat then "\\"
  else if (n =? 8)%nat then "\b"
  else if (n =? 12)%nat then "\f"
  else if (n =? 10)%nat then "\n"
  else if (n =? 13)%nat then "\r"
  else if (n =? 9)%nat then "\t"
  else if ((32 <=? n) && (n <=? 126))%nat then String c EmptyString
  else "\u00" +:+ String (hex_digit (n / 16)) (String (hex_digit (n mod 16))
                                                 EmptyString).

Fixpoint escape_chars (s : string) : string :=
  match s with
  | EmptyString => EmptyString
  | String c r => escape_char c +:+ escape_chars r
  end.

Definition encode_basestring_ascii (s : string) : string :=
  dq +:+ escape_chars s +:+ dq.

(** [str(z)] for an integer. *)
Definition str_of_int (z : Z) : string :=
  DecimalString.NilZero.string_of_int (Z.to_int z).

(** [json.dumps(j)] with the default separators [", "] and [": "]. *)
Fixpoint dumps (j : json) : string :=
  match j with
  | JNull => "null"
  | JBool true => "true"
  | JBool false => "false"
  | JInt z => str_of_int z
  | JStr s => encode_basestring_ascii s
  | JArr items => "[" +:+ join ", " (map dumps items) +:+ "]"
  | JObj pairs =>
      "{" +:+ join ", " (map (fun kv => encode_basestring_ascii (fst kv)
                                        +:+ ": " +:+ dumps (snd kv)) pairs)
      +:+ "}"
  end.

(** ** Parsing *)

(** JSON whitespace: space, tab, line feed, carriage return. *)
Definition json_ws (c : ascii) : bool :=
  let n := nat_of_ascii c in
  ((n =? 32) || (n =? 9) || (n =? 10) || (n =? 13))%nat.

Fixpoint skip_ws (s : string) : string :=
  match s with
  | EmptyString => EmptyString
  | String c r => if json_ws c then skip_ws r else s
  end.

Definition is_digit (c : ascii) : bool :=
  let n := nat_of_ascii c in ((48 <=? n) && (n <=? 57))%nat.

Definition digit_val (c : ascii) : Z := Z.of_nat (nat_of_ascii c) - 48.

Fixpoint scan_digits (acc : Z) (s : string) : Z * string :=
  match s with
  | EmptyString => (acc, s)
  | String c r =>
      if is_digit c then scan_digits (acc * 10 + digit_val c) r else (acc, s)
  end.

Definition hex_val (c : ascii) : option Z :=
  let n := nat_of_ascii c in
  if ((48 <=? n) && (n <=? 57))%nat then Some (Z.of_nat n - 48)
  else if ((97 <=? n) && (n <=? 102))%nat then Some (Z.of_nat n - 87)
  else if ((65 <=? n) && (n <=? 70))%nat then Some (Z.of_nat n - 55)
  else None.

(** The four hexadecimal digits of a [\uXXXX] escape. *)
Definition decode_uXXXX (a b c d : ascii) : option Z :=
  match hex_val a, hex_val b, hex_val c, hex_val d with
  | Some x, Some y, Some z, Some w => Some (((x * 16 + y) * 16 + z) * 16 + w)
  | _, _, _, _ => None
  end.

(** [s[len(p):]] when [s] starts with [p]. *)
Fixpoint strip_prefix (p s : string) : option string :=
  match p, s with
  | EmptyString, _ => Some s
  | String a p', String b s' =>
      if Ascii.eqb a b then strip_prefix p' s' else None
  | String _ _, EmptyString => None
  end.

(** The character that the escape [\e] stands for ([BACKSLASH] in the
    decoder). *)
Definition unescape (e : ascii) : option ascii :=
  let n := nat_of_ascii e in
  if (n =? 34)%nat then Some (ascii_of_nat 34)        (* quote *)
  else if (n =? 92)%nat then Some (ascii_of_nat 92)   (* backslash *)
  else if (n =? 47)%nat then Some (ascii_of_nat 47)   (* slash *)
  else if (n =? 98)%nat then Some (ascii_of_nat 8)    (* b *)
  else if (n =? 102)%nat then Some (ascii_of_nat 12)  (* f *)
  else if (n =? 110)%nat then Some (ascii_of_nat 10)  (* n *)
  else if (n =? 114)%nat then Some (ascii_of_nat 13)  (* r *)
  else if (n =? 116)%nat then Some (ascii_of_nat 9)   (* t *)
  else None.

(** [scanstring], after the opening quote, in strict mode: reads up to the
    closing quote, decodes the escapes and refuses raw control characters.
    [acc] holds the characters read so far, in reverse. *)
Fixpoint scanstring (acc : string) (s : string) : result (string * string) :=
  match s with
  | EmptyString => Raise (JSONDecodeError "Unterminated string starting at")
  | String c r =>
      if Ascii.eqb c "034" then Ok (String.rev acc, r)
      else if Ascii.eqb c "\" then
        match r with
        | EmptyString =>
            Raise (JSONDecodeError "Unterminated string starting at")
        | String e r1 =>
            if Ascii.eqb e "u" then
              match r1 with
              | String a (String b (String c' (String d r'))) =>
                  match decode_uXXXX a b c' d with
                  | Some n =>
                      if n <? 256
                      then scanstring
                             (String (ascii_of_nat (Z.to_nat n)) acc) r'
                      else Raise (Unmodelled "code point above 255")
                  | None => Raise (JSONDecodeError "Invalid \uXXXX escape")
                  end
              | _ => Raise (JSONDecodeError "Invalid \uXXXX escape")
              end
            else
              match unescape e with
              | Some ch => scanstring (String ch acc) r1
              | None => Raise (JSONDecodeError "Invalid \escape")
              end
        end
      else if (nat_of_ascii c <? 32)%nat then
        Raise (JSONDecodeError "Invalid control character at")
      else scanstring (String c acc) r
  end.

(** After the integer part of a number: does a fraction [.d] or an exponent
    [e d], [e+d], [e-d] follow, which makes the literal a float? *)
Definition float_follows (s : string) : bool :=
  match s with
  | String c0 (String c1 r) =>
      if Ascii.eqb c0 "." then is_digit c1
      else if Ascii.eqb c0 "e" || Ascii.eqb c0 "E" then
        is_digit c1
        || ((Ascii.eqb c1 "+" || Ascii.eqb c1 "-")
            && match r with String d _ => is_digit d | _ => false end)
      else false
  | _ => false
  end.

(** The integer part [0 | [1-9][0-9]*] of [NUMBER_RE], without the sign. *)
Definition scan_int_part (s : string) : option (Z * string) :=
  match s with
  | String c r =>
      if Ascii.eqb c "0" then Some (0, r)
      else if is_digit c then Some (scan_digits 0 s)
      else None
  | EmptyString => None
  end.

Definition expecting_value : exn := JSONDecodeError "Expecting value".

Definition starts_with (p s : string) : bool :=
  match strip_prefix p s with Some _ => true | None => false end.

(** [match_number] and the constants that follow it in [scan_once]. *)
Definition scan_number (s : string) : result (json * string) :=
  let (neg, digits) :=
    match strip_prefix "-" s with
    | Some r => (true, r)
    | None => (false, s)
    end in
  match scan_int_part digits with
  | Some (v, rest) =>
      if float_follows rest then Raise (Unmodelled "float literal")
      else Ok (JInt (if neg then - v else v), rest)
  | None =>
      if starts_with "NaN" s || starts_with "Infinity" s
         || starts_with "-Infinity" s
      then Raise (Unmodelled "float literal")
      else Raise expecting_value
  end.

Definition expecting_name : exn :=
  JSONDecodeError "Expecting property name enclosed in double quotes".
Definition expecting_comma : exn := JSONDecodeError "Expecting ',' delimiter".
Definition expecting_colon : exn := JSONDecodeError "Expecting ':' delimiter".
Definition out_of_fuel : exn := Unmodelled "fuel".

(** [scan_once], [JSONArray] and [JSONObject] of the decoder. [s] starts at
    the value; the rest of the input after the value is returned. The
    recursion is on [fuel]; [loads] supplies enough of it. *)
Fixpoint scan_once (fuel : nat) (s : string) : result (json * string) :=
  match fuel with
  | O => Raise out_of_fuel
  | S fuel' =>
      match s with
      | EmptyString => Raise expecting_value
      | String c r =>
          if Ascii.eqb c "034" then
            match scanstring EmptyString r with
            | Ok (str, rest) => Ok (JStr str, rest)
            | Raise e => Raise e
            end
          else if Ascii.eqb c "{" then
            match skip_ws r with
            | EmptyString => Raise expecting_name
            | String c' rest as r' =>
                if Ascii.eqb c' "}" then Ok (JObj [], rest)
                else object_items fuel' [] r'
            end
          else if Ascii.eqb c "[" then
            match skip_ws r with
            | EmptyString => Raise expecting_value
            | String c' rest as r' =>
                if Ascii.eqb c' "]" then Ok (JArr [], rest)
                else array_items fuel' [] r'
            end
          else
            match strip_prefix "null" s with
            | Some rest => Ok (JNull, rest)
            | None =>
            match strip_prefix "true" s with
            | Some rest => Ok (JBool true, rest)
            | None =>
            match strip_prefix "false" s with
            | Some rest => Ok (JBool false, rest)
            | None => scan_number s
            end end end
      end
  end

with array_items (fuel : nat) (acc : list json) (s : string)
  : result (json * string) :=
  match fuel with
  | O => Raise out_of_fuel
  | S fuel' =>
      match scan_once fuel' s with
      | Raise e => Raise e
      | Ok (v, r) =>
          match skip_ws r with
          | EmptyString => Raise expecting_comma
          | String c rest =>
              if Ascii.eqb c "]" then Ok (JArr (acc ++ [v]), rest)
              else if Ascii.eqb c "," then
                array_items fuel' (acc ++ [v]) (skip_ws rest)
              else Raise expecting_comma
          end
      end
  end

with object_items (fuel : nat) (acc : list (string * json)) (s : string)
  : result (json * string) :=
  match fuel with
  | O => Raise out_of_fuel
  | S fuel' =>
      match s with
      | EmptyString => Raise expecting_name
      | String q r =>
          if negb (Ascii.eqb q "034") then Raise expecting_name else
          match scanstring EmptyString r with
          | Raise e => Raise e
          | Ok (k, r1) =>
              match skip_ws r1 with
              | EmptyString => Raise expecting_colon
              | String c r2 =>
                  if negb (Ascii.eqb c ":") then Raise expecting_colon else
                  match scan_once fuel' (skip_ws r2) with
                  | Raise e => Raise e
                  | Ok (v, r3) =>
                      match skip_ws r3 with
                      | EmptyString => Raise expecting_comma
                      | String c' rest =>
                          if Ascii.eqb c' "}" then
                            Ok (JObj (dict_set k v acc), rest)
                          else if Ascii.eqb c' "," then
                            object_items fuel' (dict_set k v acc)
                              (skip_ws rest)
                          else Raise expecting_comma
                      end
                  end
              end
          end
      end
  end.

(** [json.loads(s)]: one value, surrounded by optional whitespace. *)
Definition loads (s : string) : result json :=
  match scan_once (2 * String.length s + 2) (skip_ws s) with
  | Raise e => Raise e
  | Ok (v, rest) =>
      match skip_ws rest with
      | EmptyString => Ok v
      | String _ _ => Raise (JSONDecodeError "Extra data")
      end
  end.

(* ===================================================================== *)
(** * Line channels: [IOHandler] and [StandaloneIO] *)
(* ===================================================================== *)

(** What the input stream delivers at one call of [readline]: a line, as
    sent (with its line terminator), or an interrupt signal that arrives
    while the call blocks. An exhausted stream is at end of file:
    [readline] returns the empty string from then on. *)
Inductive in_event :=
| Line (raw : string)
| Interrupt.

(** How a [for] loop over a generator stands after a bounded number of
    iterations: the generator has returned, which ends the loop, or the
    loop would go on. *)
Inductive loop_end :=
| Exhausted
| Running.

(** The interface both channels offer to the pipeline. [read_next] is one
    resumption of the generator that [read()] returns: [Some line] when it
    yields, [None] when it returns. *)
Class LineChannel (S : Type) := {
  read_line : M S string;
  write_line : string → M S unit;
  read_next : M S (option string);
}.

Module IOHandler.

(** [inp] is what is still to be read; [out] is what has been written,
    one entry per call of [out.write]. *)
Record t := mk { inp : list in_event; out : list string }.

Definition __init__ (inp : list in_event) (out : list string) : t :=
  mk inp out.

(** [self.inp.readline()] *)
Definition readline : M t string :=
  fun self =>
    match inp self with
    | [] => (Ok EmptyString, self)
    | Line raw :: rest => (Ok raw, mk rest (out self))
    | Interrupt :: rest => (Raise KeyboardInterrupt, mk rest (out self))
    end.

(** Unbuffered printing: the message and a line feed, then a flush. *)
Definition write_line (message : string) : M t unit :=
  fun self => (Ok tt, mk (inp self) (out self ++ [message +:+ nl])).

Definition read_line : M t string :=
  let* line :=
    try_except (let* raw := readline in ret (strip raw))
               is_KeyboardInterrupt (raise EOFError) in
  (* i3status sends EOF, or an empty line *)
  if str_is_empty line then raise EOFError else ret line.

(** One step of the generator [read]: the next line, or the end of the
    iteration when [read_line] raises [EOFError]. *)
Definition read_next : M t (option string) :=
  try_except (let* line := read_line in ret (Some line))
             is_EOFError (ret None).

(** The iteration [for line in self.read()], collected: the lines the
    generator yields in at most [fuel] resumptions, and how the iteration
    stands after them. *)
Fixpoint read (fuel : nat) : M t (list string * loop_end) :=
  match fuel with
  | O => ret ([], Running)
  | S fuel' =>
      let* nxt := read_next in
      match nxt with
      | None => ret ([], Exhausted)
      | Some line =>
          let* more := read fuel' in ret (line :: fst more, snd more)
      end
  end.

End IOHandler.

Module StandaloneIO.

(** The inherited channel, the counter [n], the tick interval, and for
    each coming [time.sleep] whether an interrupt arrives during it (none
    once the list is exhausted). *)
Record t := mk {
  base : IOHandler.t;
  n : Z;
  interval : Z;
  sleeps : list bool;
}.

Definition proto : list string :=
  [ "{" +:+ dq +:+ "version" +:+ dq +:+ ": 1}";
    "[";
    "[]";
    ",[]" ].

(** The class attribute [n = -1] is the counter's first value. *)
Definition __init__ (interval : Z) (stdin : list in_event)
    (sleeps : list bool) : t :=
  mk (IOHandler.__init__ stdin []) (-1) interval sleeps.

(** [time.sleep(self.interval)]: a negative length is refused before any
    waiting. *)
Definition sleep : M t unit :=
  fun self =>
    if interval self <? 0 then
      (Raise (ValueError "sleep length must be non-negative"), self)
    else
      match sleeps self with
      | [] => (Ok tt, self)
      | interrupted :: rest =>
          let self' := mk (base self) (n self) (interval self) rest in
          (if interrupted then Raise KeyboardInterrupt else Ok tt, self')
      end.

Definition read_line : M t string :=
  fun self =>
    let self' :=
      mk (base self) (n self + 1) (interval self) (sleeps self) in
    match tuple_get proto (Z.min (n self') (Z.of_nat (length proto) - 1)) with
    | Some line => (Ok line, self')
    | None => (Raise (IndexError "tuple index out of range"), self')
    end.

(** Writing is inherited from [IOHandler]. *)
Definition write_line (message : string) : M t unit :=
  fun self =>
    let (r, b) := IOHandler.write_line message (base self) in
    (r, mk b (n self) (interval self) (sleeps self)).

Definition read_next : M t (option string) :=
  let* awake :=
    try_except (let* _ := sleep in ret true)
               is_KeyboardInterrupt (ret false) in
  if awake : bool then let* line := read_line in ret (Some line)
  else ret None.

(** What the first [k] calls of [read_line] return, in order. *)
Fixpoint read_lines (k : nat) (self : t) : list (result string) :=
  match k with
  | O => []
  | S k' => let (r, self') := read_line self in r :: read_lines k' self'
  end.

End StandaloneIO.

#[export] Instance IOHandler_channel : LineChannel IOHandler.t := {
  read_line := IOHandler.read_line;
  write_line := IOHandler.write_line;
  read_next := IOHandler.read_next;
}.

#[export] Instance StandaloneIO_channel : LineChannel StandaloneIO.t := {
  read_line := StandaloneIO.read_line;
  write_line := StandaloneIO.write_line;
  read_next := StandaloneIO.read_next;
}.

(* ===================================================================== *)
(** * The JSON tick pipeline: [JSONIO] *)
(* ===================================================================== *)

Module JSONIO.
Section Pipeline.
Context {IO : Type} `{LineChannel IO}.

(** The handshake: each of the two framing lines is read and echoed. *)
Definition __init__ : M IO unit :=
  let* line1 := read_line in
  let* _ := write_line line1 in
  let* line2 := read_line in
  write_line line2.

(** [with self.parse_line(line) as j: body]. The parsed value is handed
    to [body], which mutates it in place; the value it leaves is written
    back. When [json.loads] or [body] raises, nothing is written. *)
Definition parse_line (line : string) (body : json → result json)
  : M IO unit :=
  let (line, prefix) :=
    (* ignore comma at start of lines *)
    if startswith_comma line then (str_tail line, ",")
    else (line, EmptyString) in
  let* j := lift (loads line) in
  let* j' := lift (body j) in
  write_line (prefix +:+ dumps j').

(** [for j in self.read(): body], for at most [fuel] ticks. *)
Fixpoint read (fuel : nat) (body : json → result json) : M IO loop_end :=
  match fuel with
  | O => ret Running
  | S fuel' =>
      let* nxt := read_next in
      match nxt with
      | None => ret Exhausted
      | Some line =>
          let* _ := parse_line line body in
          read fuel' body
      end
  end.

End Pipeline.
End JSONIO.

(* ===================================================================== *)
(** * Modules and their settings: [Module] *)
(* ===================================================================== *)

Definition Module_class : pyclass := Class "Module" [].
Definition AsyncModule_class : pyclass := Class "AsyncModule" [Module_class].
Definition IntervalModule_class : pyclass :=
  Class "IntervalModule" [AsyncModule_class].

Module Module_.

(** The class attribute [settings]: a tuple of names, or a tuple of
    pairs of a name and a docstring. *)
Inductive settings_decl :=
| Plain (names : list string)
| Documented (pairs : list (string * string)).

(** A subclass of [Module] with its class attributes. *)
Record class := mk_class {
  cls : pyclass;
  settings : settings_decl;
  required : list string;
}.

(** A module instance. [output] and [position] start from the class
    attributes [None] and [0]; an output is taken to be a value that
    [json.dumps] accepts, and a position to be an [int], as [list.insert]
    requires. [options] holds the attributes that [setattr] stores for the
    settings, whose names are taken to differ from the four attributes
    above them. *)
Record t := mk {
  type : pyclass;
  output : json;
  position : Z;
  self_settings : list string;
  self_required : gset string;
  options : list (string * json);
}.

(** [self.settings] after the first statement of [__init__]: documented
    settings are unzipped to their names. *)
Definition setting_names (d : settings_decl) : list string :=
  match d with
  | Plain names => names
  | Documented pairs => pairs.*1
  end.

(** [setattr(self, key, value)] for a key that is none of the attributes
    above: the value is stored under the key. *)
Definition setattr (self : t) (key : string) (value : json) : t :=
  mk (type self) (output self) (position self) (self_settings self)
     (self_required self) (dict_set key value (options self)).

(** The loop over [kwargs.items()]: every recognised key is stored and
    collected in [required]; the first key that is not recognised raises. *)
Fixpoint set_options (kwargs : list (string * json)) (self : t)
    (required : gset string) : result (t * gset string) :=
  match kwargs with
  | [] => Ok (self, required)
  | (key, value) :: rest =>
      if bool_decide (key ∈ self_settings self) then
        set_options rest (setattr self key value) ({[ key ]} ∪ required)
      else
        Raise (ConfigurationError (cls_name (type self)) (Some key)
                 None None false)
  end.

(** [Module.__init__(self, *args, **kwargs)] for an instance of class
    [c]. The hook [self.init()] that ends it is empty in [Module]. *)
Definition __init__ (c : class) (args : list json)
    (kwargs : list (string * json)) : result t :=
  let self :=
    mk (cls c) JNull 0 (setting_names (settings c))
       (list_to_set (required c)) [] in
  let kwargs' :=
    if ((length args =? 1) && (length kwargs =? 0))%nat then
      (* User can also pass in a dict for their settings *)
      match args with
      | JObj d :: _ => Ok d
      | _ => Raise (AttributeError "object has no attribute 'items'")
      end
    else Ok kwargs in
  result_bind kwargs' (fun kwargs =>
  result_bind (set_options kwargs self ∅) (fun '(self, required) =>
  let required := required ∩ self_required self in
  if bool_decide (size required ≠ size (self_required self)) then
    Raise (ConfigurationError (cls_name (type self)) None
             (Some (self_required self ∖ required)) None false)
  else Ok self)).

End Module_.

(* ===================================================================== *)
(** * Finding the module class: [ClassFinder] *)
(* ===================================================================== *)

Module ClassFinder.

Record t := mk { baseclass : pyclass; exclude : list pyclass }.

(** A member of a Python module: a class, or anything else. *)
Inductive pyobject :=
| ClassObj (c : pyclass)
| OtherObj.

(** A Python module (a [types.ModuleType]): its [__name__] and its
    namespace. *)
Record py_module := mk_module {
  name : string;
  namespace : list (string * pyobject);
}.

Definition predicate (self : t) (obj : pyobject) : bool :=
  match obj with
  | ClassObj c =>
      issubclass c (baseclass self)
      && negb (existsb (pyclass_eqb c) (exclude self))
  | OtherObj => false
  end.

Fixpoint insert_by_name (p : string * pyobject)
    (l : list (string * pyobject)) : list (string * pyobject) :=
  match l with
  | [] => [p]
  | q :: l' =>
      if String.leb (fst p) (fst q) then p :: l
      else q :: insert_by_name p l'
  end.

(** [inspect.getmembers(module, predicate)]: the members that satisfy
    the predicate, as pairs of name and value sorted by name. *)
Definition getmembers (module : py_module) (pred : pyobject → bool)
  : list (string * pyobject) :=
  foldr insert_by_name [] (filter (fun p => pred (snd p)) (namespace module)).

(** The iterator that [zip( *pairs)] returns, with the arguments it was
    built from. In Python 3, which the file needs for its calls of
    [super()] without arguments, [zip] returns an iterator and not a list:
    the object supports iteration only. *)
Inductive zip_object := Zip (pairs : list (string * pyobject)).

(** [z[i]] on a zip object: it has no [__getitem__]. *)
Definition zip_getitem (z : zip_object) (i : Z) : result (list pyobject) :=
  Raise (TypeError "'zip' object is not subscriptable").

Definition search_module (self : t) (module : py_module)
  : result (list pyobject) :=
  (* Neat trick: [(x,y),(u,v)] becomes [(x,u),(y,v)] *)
  zip_getitem (Zip (getmembers module (predicate self))) 1.

Definition classes_of (objs : list pyobject) : list pyclass :=
  omap (fun o => match o with ClassObj c => Some c | OtherObj => None end)
       objs.

Definition get_class (self : t) (module : py_module) : result pyobject :=
  result_bind (search_module self module) (fun classes =>
  if (1 <? length classes)%nat then
    (* If there are multiple Module clases bundled in one module,
       well, we can't decide for the user. *)
    Raise (ConfigurationError (name module) None None
             (Some (classes_of classes)) false)
  else
    match classes with
    | [] => Raise (ConfigurationError (name module) None None None true)
    | c :: _ => Ok c
    end).

End ClassFinder.

(* ===================================================================== *)
(** * The engine: [i3pystatus] *)
(* ===================================================================== *)

(** Generic form of the merge loop: the insertions [(index, value)] are
    applied to the list one after the other. *)
Definition insert_all {A} (ins : list (Z * A)) (l : list A) : list A :=
  foldl (fun l p => list_insert (fst p) (snd p) l) l ins.

Module i3pystatus.

(** [self.io] is one of the two channels; calls on it dispatch on the
    object's class. *)
Inductive io_obj :=
| Standalone (s : StandaloneIO.t)
| Handler (s : IOHandler.t).

Definition lift_standalone {A} (m : M StandaloneIO.t A) (s : StandaloneIO.t)
  : result A * io_obj :=
  let (r, s') := m s in (r, Standalone s').
Definition lift_handler {A} (m : M IOHandler.t A) (s : IOHandler.t)
  : result A * io_obj :=
  let (r, s') := m s in (r, Handler s').

#[export] Instance io_channel : LineChannel io_obj := {
  read_line := fun io =>
    match io with
    | Standalone s => lift_standalone StandaloneIO.read_line s
    | Handler s => lift_handler IOHandler.read_line s
    end;
  write_line := fun message io =>
    match io with
    | Standalone s => lift_standalone (StandaloneIO.write_line message) s
    | Handler s => lift_handler (IOHandler.write_line message) s
    end;
  read_next := fun io =>
    match io with
    | Standalone s => lift_standalone StandaloneIO.read_next s
    | Handler s => lift_handler IOHandler.read_next s
    end;
}.

(** An engine instance: the attributes that [__init__] binds. *)
Record t := mk { io : io_obj; finder : ClassFinder.t }.

(** [stdin] and [sleeps] are the environment a standalone channel runs
    in; [input_stream] is what the host will send. *)
Definition __init__ (standalone : bool) (interval : Z)
    (input_stream : list in_event) (sleeps : list bool) : t :=
  mk (if standalone
      then Standalone (StandaloneIO.__init__ interval input_stream sleeps)
      else Handler (IOHandler.__init__ input_stream []))
     (ClassFinder.mk Module_class
        [Module_class; IntervalModule_class; AsyncModule_class]).

(** A reference to a module instance. *)
Definition ref := nat.

(** The store shared by all engine instances: the one list object bound
    to the class attribute [modules] (no instance ever binds an attribute
    of that name, so [self.modules] always resolves to it), the module
    instances it refers to, and the daemon threads that were started. *)
Record world := mk_world {
  modules : list ref;
  heap : gmap ref Module_.t;
  threads : list ref;
}.

(** The first argument of [register]: a module instance, or a Python
    module in which the class is to be found. *)
Inductive module_arg :=
| Instance (r : ref)
| PyModule (m : ClassFinder.py_module).

(** [_make_instance] is a class method: its first parameter is [cls], and
    the name [self] that the branch for a Python module refers to is not
    bound, so that branch raises [NameError] when it evaluates
    [self.finder], before any class is looked up or instantiated. *)
Definition _make_instance (module : module_arg) (position : Z)
    (args : list json) (kwargs : list (string * json))
  : result (ref * Z) :=
  match module with
  | PyModule _ => Raise (NameError "name 'self' is not defined")
  | Instance r =>
      if negb (((length args =? 0) && (length kwargs =? 0))%nat) then
        Raise (ValueError
          "Additional arguments are invalid if 'module' is already an object")
      else Ok (r, position)
  end.

(** [module.registered(self)]: [AsyncModule] and its subclasses start a
    daemon thread; [Module] does nothing. *)
Definition registered (r : ref) : M world unit :=
  fun w =>
    match heap w !! r with
    | Some m =>
        if issubclass (Module_.type m) AsyncModule_class
        then (Ok tt, mk_world (modules w) (heap w) (threads w ++ [r]))
        else (Ok tt, w)
    | None => (Ok tt, w)
    end.

Definition set_position (position : Z) (m : Module_.t) : Module_.t :=
  Module_.mk (Module_.type m) (Module_.output m) position
    (Module_.self_settings m) (Module_.self_required m) (Module_.options m).

(** [register(self, module, position=0, *args, **kwargs)] *)
Definition register (self : t) (module : module_arg) (position : Z)
    (args : list json) (kwargs : list (string * json)) : M world unit :=
  let* made := lift (_make_instance module position args kwargs) in
  let (r, position) := made : ref * Z in
  let* w := get in
  let* _ := put (mk_world (modules w ++ [r]) (heap w) (threads w)) in
  let* w := get in
  let* _ := put (mk_world (modules w)
                   (alter (set_position position) r (heap w))
                   (threads w)) in
  registered r.

(** [self.modules], dereferenced. *)
Definition registry (self : t) (w : world) : list Module_.t :=
  omap (fun r => heap w !! r) (modules w).

(** The body of the tick loop:
    [for module in self.modules: j.insert(module.position, module.output)].
    Only a list has [insert]. *)
Fixpoint merge (mods : list Module_.t) (j : json) : result json :=
  match mods with
  | [] => Ok j
  | module :: rest =>
      match j with
      | JArr items =>
          merge rest (JArr (list_insert (Module_.position module)
                              (Module_.output module) items))
      | _ => Raise (AttributeError "object has no attribute 'insert'")
      end
  end.

(** [run], for at most [fuel] ticks: the handshake, then the tick loop.
    The result is paired with the final state of the channel. The loop
    itself does not change the store; what the daemon threads of the
    modules write to it between two ticks is outside the embedding, so
    every tick sees the store [w]. *)
Definition run (self : t) (w : world) (fuel : nat)
  : result loop_end * io_obj :=
  (let* _ := JSONIO.__init__ in
   JSONIO.read fuel (merge (registry self w))) (io self).

End i3pystatus.

(* ===================================================================== *)
(** * Where each element of a merged array comes from *)
(* ===================================================================== *)

(** The merge loop does not look at the values it moves, so it can be run
    on values that carry their origin: the index of an element in the
    array the host sent, or the index of a module in the registry. *)
Inductive origin :=
| FromHost (i : nat)
| FromModule (k : nat).

(** The insertions the merge loop performs, in registration order. *)
Definition insertions (mods : list Module_.t) : list (Z * json) :=
  (fun m => (Module_.position m, Module_.output m)) <$> mods.

Definition tagged_insertions (first : nat) (mods : list Module_.t)
  : list (Z * (origin * json)) :=
  imap (fun k m => (Module_.position m,
                     (FromModule (first + k), Module_.output m))) mods.

Definition tagged_items (items : list json) : list (origin * json) :=
  imap (fun i x => (FromHost i, x)) items.

(** The merged array, each element with its origin. *)
Definition merge_tagged (mods : list Module_.t) (items : list json)
  : list (origin * json) :=
  insert_all (tagged_insertions 0 mods) (tagged_items items).

(** The output of the [k]-th registered module is at index [i] of the
    merged array. *)
Definition output_at (mods : list Module_.t) (items : list json)
    (k i : nat) : Prop :=
  ∃ x, merge_tagged mods items !! i = Some (FromModule k, x).

(** The stacking rule as the specification words it: of two modules with
    the same position, the one registered later ends up to the right. *)
Definition later_stacks_right (mods : list Module_.t) (items : list json)
  : Prop :=
  ∀ k1 k2 m1 m2 i1 i2,
    mods !! k1 = Some m1 → mods !! k2 = Some m2 → (k1 < k2)%nat →
    Module_.position m1 = Module_.position m2 →
    output_at mods items k1 i1 → output_at mods items k2 i2 →
    (i1 < i2)%nat.

(** A synchronous module instance with a given output, as registration
    examples use them. *)
Definition module_with (out : json) (position : Z) : Module_.t :=
  Module_.mk (Class "Text" [Module_class]) out position [] ∅ [].

(** Two module instances with outputs ["A"] and ["B"], constructed and not
    yet registered, in a store whose registry is empty. *)
Definition world_AB : i3pystatus.world :=
  i3pystatus.mk_world []
    (<[1%nat := module_with (JStr "B") 0]>
       (<[0%nat := module_with (JStr "A") 0]> ∅)) [].

(** The round trip as the specification words it: with no module
    registered, a tick line is written back as it was read. *)
Definition echoes_byte_for_byte (line : string) : Prop :=
  ∀ inp out,
    JSONIO.parse_line line (i3pystatus.merge []) (IOHandler.mk inp out)
    = (Ok tt, IOHandler.mk inp (out ++ [line +:+ nl])).

(** The tick line [,[{"x":1}]] and what [json.dumps] makes of its array,
    [[{"x": 1}]]. *)
Definition tick_x1 : string := ",[{" +:+ dq +:+ "x" +:+ dq +:+ ":1}]".
Definition dumped_x1 : string := "[{" +:+ dq +:+ "x" +:+ dq +:+ ": 1}]".
Definition version_header : string :=
  "{" +:+ dq +:+ "version" +:+ dq +:+ ": 1}".

(** The two error rules of the constructor as the specification words
    them. An unrecognised key of the mapping is the one the error names: *)
Definition unknown_key_is_named (c : Module_.class)
    (kwargs : list (string * json)) : Prop :=
  ∀ key, key ∈ kwargs.*1 → key ∉ Module_.setting_names (Module_.settings c) →
    Module_.__init__ c [] kwargs
    = Raise (ConfigurationError (cls_name (Module_.cls c)) (Some key)
               None None false).

(** The keys of [required] that the mapping omits. *)
Definition missing_keys (c : Module_.class) (kwargs : list (string * json))
  : gset string :=
  list_to_set (Module_.required c) ∖ list_to_set kwargs.*1.

(** Omitting a required key raises the error that lists the missing keys: *)
Definition missing_keys_are_listed (c : Module_.class)
    (kwargs : list (string * json)) : Prop :=
  missing_keys c kwargs ≠ ∅ →
  Module_.__init__ c [] kwargs
  = Raise (ConfigurationError (cls_name (Module_.cls c)) None
             (Some (missing_keys c kwargs)) None false).

(** A module class with one setting, which is required. *)
Definition clock_class : Module_.class :=
  Module_.mk_class (Class "Clock" [IntervalModule_class])
    (Module_.Plain ["format"]) ["format"].

(** Registering an instance with extra constructor arguments, as the
    specification words it: a configuration error. *)
Definition is_ConfigurationError (e : exn) : bool :=
  match e with ConfigurationError _ _ _ _ _ => true | _ => false end.

Definition extra_arguments_raise_configuration_error
    (self : i3pystatus.t) (r : i3pystatus.ref) (position : Z)
    (args : list json) (kwargs : list (string * json))
    (w : i3pystatus.world) : Prop :=
  ∃ e w', i3pystatus.register self (i3pystatus.Instance r) position
            args kwargs w = (Raise e, w')
          ∧ is_ConfigurationError e = true.

(** A Python module that bundles one eligible class, one with two of them
    and one with none. *)
Definition clock_module : ClassFinder.py_module :=
  ClassFinder.mk_module "clock"
    [ ("Clock", ClassFinder.ClassObj (Class "Clock" [IntervalModule_class]));
      ("IntervalModule", ClassFinder.ClassObj IntervalModule_class);
      ("time", ClassFinder.OtherObj) ].

Definition two_class_module : ClassFinder.py_module :=
  ClassFinder.mk_module "mail"
    [ ("Mail", ClassFinder.ClassObj (Class "Mail" [IntervalModule_class]));
      ("Backend", ClassFinder.ClassObj (Class "Backend" [Module_class])) ].

Definition empty_module : ClassFinder.py_module :=
  ClassFinder.mk_module "helpers" [ ("time", ClassFinder.OtherObj) ].

(* ===================================================================== *)
(** * Further definitions: the error message and the frame of a tick *)
(* ===================================================================== *)

(** [ConfigurationError.__init__]: the message that the exception carries.
    It starts with the module name, and one clause is appended for each
    argument that is given. How a set of names and a tuple of classes are
    formatted is left to [format_set] and [format_classes]: the order in
    which a set prints and the qualified names of the classes are not fixed
    by the source. *)
Definition ConfigurationError_message
    (format_set : gset string → string)
    (format_classes : list pyclass → string)
    (module : string) (key : option string) (missing : option (gset string))
    (ambigious_classes : option (list pyclass)) (invalid : bool) : string :=
  let message := "Module '" +:+ module +:+ "'" in
  let message :=
    match key with
    | Some k => message +:+ ": invalid option '" +:+ k +:+ "'"
    | None => message
    end in
  let message :=
    match missing with
    | Some m => message +:+ ": missing required options: " +:+ format_set m
    | None => message
    end in
  let message :=
    match ambigious_classes with
    | Some cs =>
        message
        +:+ ": ambigious module specification, found multiple classes: "
        +:+ format_classes cs
    | None => message
    end in
  if invalid then message +:+ ": no class found" else message.

(** [str(e)] for an exception that was built by [ConfigurationError]. *)
Definition message_of (format_set : gset string → string)
    (format_classes : list pyclass → string) (e : exn) : option string :=
  match e with
  | ConfigurationError module key missing ambigious_classes invalid =>
      Some (ConfigurationError_message format_set format_classes
              module key missing ambigious_classes invalid)
  | _ => None
  end.

(** What [parse_line] writes for a line, when it writes: the prefix and
    the serialised value that [body] leaves. *)
Definition tick_frame (body : json → result json) (line : string)
  : result string :=
  let (line, prefix) :=
    if startswith_comma line then (str_tail line, ",")
    else (line, EmptyString) in
  result_bind (loads line) (fun j =>
  result_bind (body j) (fun j' => Ok (prefix +:+ dumps j'))).

(** [Unmodelled] marks an input outside the embedded fragment; it is not
    an exception of the program. *)
Definition is_Unmodelled (e : exn) : bool :=
  match e with Unmodelled _ => true | _ => false end.

(** How the embedded decoder ends when it returns no value: with a
    [JSONDecodeError], or at an input outside the fragment. *)
Definition decoder_stop (e : exn) : bool :=
  match e with
  | JSONDecodeError _ | Unmodelled _ => true
  | _ => false
  end.

(** An index that [list.insert] accepts: it fits a signed machine word
    ([Py_ssize_t], 64 bits). *)
Definition fits_index (i : Z) : Prop := - (2 ^ 63) ≤ i ∧ i < 2 ^ 63.

(** The attributes of an instance that the constructor and the engine
    read. A setting with one of these names, or with a name that starts
    with two underscores, is not just stored by [setattr]: it replaces
    what the code reads afterwards. *)
Definition reserved_attributes : list string :=
  ["output"; "position"; "settings"; "required"; "init"; "registered"].

Definition ordinary_name (key : string) : Prop :=
  (key ∉ reserved_attributes) ∧ starts_with "__" key = false.

(** The class declares only settings that [setattr] just stores. *)
Definition ordinary_settings (c : Module_.class) : Prop :=
  Forall ordinary_name (Module_.setting_names (Module_.settings c)).

Definition is_AttributeError (e : exn) : bool :=
  match e with AttributeError _ => true | _ => false end.

(** An event at which [read_line] raises [EOFError]. *)
Definition ends_stream (ev : in_event) : Prop :=
  match ev with
  | Interrupt => True
  | Line raw => strip raw = EmptyString
  end.

(** The lines [raws] are not empty once stripped, and [frames] are the
    frames that the tick loop writes for them, in order. *)
Definition frames_of (body : json → result json)
    (raws frames : list string) : Prop :=
  Forall2 (λ raw frame, strip raw ≠ EmptyString
                        ∧ tick_frame body (strip raw) = Ok frame)
          raws frames.

(** A frame as [write_line] puts it on the stream. *)
Definition framed (frames : list string) : list string :=
  (λ frame, frame +:+ nl) <$> frames.


(** A JSON value as [json.loads] builds it: the keys of every dict are
    distinct. *)
Fixpoint wf_json (j : json) : Prop :=
  match j with
  | JArr items => foldr (fun x acc => wf_json x ∧ acc) True items
  | JObj pairs =>
      NoDup pairs.*1 ∧ foldr (fun kv acc => wf_json (snd kv) ∧ acc) True pairs
  | _ => True
  end.

(** What can follow a value in the output of [json.dumps]: the end of the
    text, a comma, or a closing bracket or brace. *)
Definition delimited (rest : string) : Prop :=
  match rest with
  | EmptyString => True
  | String c _ => c = ","%char ∨ c = "]"%char ∨ c = "}"%char
  end.

(** The line without its leading comma, and the comma. *)
Definition payload (line : string) : string :=
  if startswith_comma line then str_tail line else line.
Definition comma_prefix (line : string) : string :=
  if startswith_comma line then "," else EmptyString.

(** The decoder reads the printed form of [j] back, whatever delimiter
    follows it, once it has [f0] units of fuel. *)
Definition reads_back (j : json) : Prop :=
  ∃ f0 : nat, ∀ (f : nat) (rest : string),
    (f0 ≤ f)%nat → delimited rest →
    scan_once f (dumps j +:+ rest) = Ok (j, rest).

(** One [key: value] entry of a printed dict. *)
Definition dumps_entry (kv : string * json) : string :=
  encode_basestring_ascii (fst kv) +:+ ": " +:+ dumps (snd kv).

(* ===================================================================== *)
(** * The decoder never runs out of fuel *)
(* ===================================================================== *)

Section Decoder.
Implicit Types (s r p : string) (f : nat).

Lemma skip_ws_length s : (String.length (skip_ws s) ≤ String.length s)%nat.
Proof.
  induction s as [|c s IH]; simpl; [lia|].
  destruct (json_ws c); simpl; lia.
Qed.

Lemma strip_prefix_length p s r :
  strip_prefix p s = Some r →
  String.length s = (String.length p + String.length r)%nat.
Proof.
  revert s. induction p as [|a p IH]; intros s Hp; simpl in *.
  - by injection Hp as <-.
  - destruct s as [|b s]; [done|].
    destruct (Ascii.eqb a b); [|done]. simpl. by rewrite (IH _ Hp).
Qed.

(** [scanstring] consumes the closing quote at least. *)
Lemma scanstring_shorter_aux (n : nat) :
  ∀ s acc str r,
    (String.length s ≤ n)%nat →
    scanstring acc s = Ok (str, r) →
    (String.length r < String.length s)%nat.
Proof.
  induction n as [|n IH]; intros s acc str r Hn Hscan.
  - destruct s; simpl in *; [done|lia].
  - destruct s as [|c s]; simpl in Hscan; [done|].
    destruct (Ascii.eqb c "034").
    { injection Hscan as _ <-. simpl. lia. }
    destruct (Ascii.eqb c "\").
    + destruct s as [|e s1]; [done|].
      destruct (Ascii.eqb e "u").
      * destruct s1 as [|a [|b [|c' [|d r']]]]; try done.
        destruct (decode_uXXXX a b c' d) as [k|]; [|done].
        destruct (k <? 256); [|done].
        apply IH in Hscan; simpl in *; lia.
      * destruct (unescape e); [|done].
        apply IH in Hscan; simpl in *; lia.
    + destruct (nat_of_ascii c <? 32)%nat; [done|].
      apply IH in Hscan; simpl in *; lia.
Qed.

Lemma scanstring_shorter s acc str r :
  scanstring acc s = Ok (str, r) →
  (String.length r < String.length s)%nat.
Proof. by apply (scanstring_shorter_aux (String.length s)). Qed.

Lemma scanstring_fuel_aux (n : nat) :
  ∀ s acc, (String.length s ≤ n)%nat → scanstring acc s ≠ Raise out_of_fuel.
Proof.
  induction n as [|n IH]; intros s acc Hn.
  - destruct s; simpl in *; [done|lia].
  - destruct s as [|c s]; simpl; [done|].
    destruct (Ascii.eqb c "034"); [done|].
    destruct (Ascii.eqb c "\").
    + destruct s as [|e s1]; [done|].
      destruct (Ascii.eqb e "u").
      * destruct s1 as [|a [|b [|c' [|d r']]]]; try done.
        destruct (decode_uXXXX a b c' d) as [k|]; [|done].
        destruct (k <? 256); [|done].
        apply IH; simpl in *; lia.
      * destruct (unescape e); [|done].
        apply IH; simpl in *; lia.
    + destruct (nat_of_ascii c <? 32)%nat; [done|].
      apply IH; simpl in *; lia.
Qed.

Lemma scanstring_fuel s acc : scanstring acc s ≠ Raise out_of_fuel.
Proof. by apply (scanstring_fuel_aux (String.length s)). Qed.

Lemma scan_digits_length acc s :
  (String.length (scan_digits acc s).2 ≤ String.length s)%nat.
Proof.
  revert acc. induction s as [|c s IH]; intros acc; simpl; [lia|].
  destruct (is_digit c); simpl; [|lia]. specialize (IH (acc * 10 + digit_val c)).
  lia.
Qed.

Lemma scan_int_part_shorter s v r :
  scan_int_part s = Some (v, r) →
  (String.length r < String.length s)%nat.
Proof.
  destruct s as [|c s]; simpl; [done|].
  destruct (Ascii.eqb c "0"); [intros [= _ <-]; lia|].
  destruct (is_digit c) eqn:Hd; [|done].
  intros Hscan.
  pose proof (scan_digits_length 0 (String c s)) as Hlen.
  cbn [scan_digits] in Hlen. rewrite Hd in Hlen.
  pose proof (scan_digits_length (0 * 10 + digit_val c) s) as Hlen'.
  destruct (scan_digits _ s) as [v' r'].
  injection Hscan as _ <-. simpl in *. lia.
Qed.

Lemma scan_number_shorter s v r :
  scan_number s = Ok (v, r) → (String.length r < String.length s)%nat.
Proof.
  unfold scan_number.
  destruct (strip_prefix "-" s) as [d|] eqn:Hneg.
  - apply strip_prefix_length in Hneg.
    destruct (scan_int_part d) as [[n rest]|] eqn:Hint.
    + apply scan_int_part_shorter in Hint.
      destruct (float_follows rest); [done|].
      intros [= _ <-]. simpl in *. lia.
    + by destruct (_ || _).
  - destruct (scan_int_part s) as [[n rest]|] eqn:Hint.
    + apply scan_int_part_shorter in Hint.
      destruct (float_follows rest); [done|].
      by intros [= _ <-].
    + by destruct (_ || _).
Qed.

Lemma scan_number_fuel s : scan_number s ≠ Raise out_of_fuel.
Proof.
  unfold scan_number.
  destruct (strip_prefix "-" s);
    (destruct (scan_int_part _) as [[n rest]|];
     [by destruct (float_follows rest) | by destruct (_ || _)]).
Qed.

(** Every value takes at least one character of the input. *)
Lemma scan_shorter f :
  (∀ s v r, scan_once f s = Ok (v, r) →
            (String.length r < String.length s)%nat)
  ∧ (∀ acc s v r, array_items f acc s = Ok (v, r) →
                  (String.length r < String.length s)%nat)
  ∧ (∀ acc s v r, object_items f acc s = Ok (v, r) →
                  (String.length r < String.length s)%nat).
Proof.
  induction f as [|f (IHv & IHa & IHo)]; [by split_and!|].
  split_and!.
  - intros s v r Hscan. cbn [scan_once] in Hscan.
    destruct s as [|c s']; [done|].
    destruct (Ascii.eqb c "034").
    { destruct (scanstring EmptyString s') as [[str rest]|] eqn:Hstr; [|done].
      apply scanstring_shorter in Hstr. injection Hscan as _ <-.
      simpl. lia. }
    destruct (Ascii.eqb c "{").
    { pose proof (skip_ws_length s') as Hws.
      destruct (skip_ws s') as [|c' rest]; [done|].
      destruct (Ascii.eqb c' "}").
      - injection Hscan as _ <-. simpl in *. lia.
      - apply IHo in Hscan. simpl in *. lia. }
    destruct (Ascii.eqb c "[").
    { pose proof (skip_ws_length s') as Hws.
      destruct (skip_ws s') as [|c' rest]; [done|].
      destruct (Ascii.eqb c' "]").
      - injection Hscan as _ <-. simpl in *. lia.
      - apply IHa in Hscan. simpl in *. lia. }
    destruct (strip_prefix "null" _) as [rest|] eqn:Hnull.
    { apply strip_prefix_length in Hnull. injection Hscan as _ <-.
      rewrite Hnull. simpl. lia. }
    destruct (strip_prefix "true" _) as [rest|] eqn:Htrue.
    { apply strip_prefix_length in Htrue. injection Hscan as _ <-.
      rewrite Htrue. simpl. lia. }
    destruct (strip_prefix "false" _) as [rest|] eqn:Hfalse.
    { apply strip_prefix_length in Hfalse. injection Hscan as _ <-.
      rewrite Hfalse. simpl. lia. }
    by apply scan_number_shorter in Hscan.
  - intros acc s v r Hscan. cbn [array_items] in Hscan.
    destruct (scan_once f s) as [[v1 r1]|] eqn:Hv; [|done].
    apply IHv in Hv. pose proof (skip_ws_length r1) as Hws.
    destruct (skip_ws r1) as [|c rest]; [done|].
    destruct (Ascii.eqb c "]").
    { injection Hscan as _ <-. simpl in *. lia. }
    destruct (Ascii.eqb c ","); [|done].
    apply IHa in Hscan. pose proof (skip_ws_length rest). simpl in *. lia.
  - intros acc s v r Hscan. cbn [object_items] in Hscan.
    destruct s as [|q s']; [done|].
    destruct (negb (Ascii.eqb q "034")); [done|].
    destruct (scanstring EmptyString s') as [[k r1]|] eqn:Hk; [|done].
    apply scanstring_shorter in Hk. pose proof (skip_ws_length r1) as Hws1.
    destruct (skip_ws r1) as [|c r2]; [done|].
    destruct (negb (Ascii.eqb c ":")); [done|].
    pose proof (skip_ws_length r2) as Hws2.
    destruct (scan_once f (skip_ws r2)) as [[v1 r3]|] eqn:Hv; [|done].
    apply IHv in Hv. pose proof (skip_ws_length r3) as Hws3.
    destruct (skip_ws r3) as [|c' rest]; [done|].
    destruct (Ascii.eqb c' "}").
    { injection Hscan as _ <-. simpl in *. lia. }
    destruct (Ascii.eqb c' ","); [|done].
    apply IHo in Hscan. pose proof (skip_ws_length rest). simpl in *. lia.
Qed.

(** Two units of fuel per character of the input are enough. *)
Lemma scan_fuel f :
  (∀ s, (2 * String.length s + 1 ≤ f)%nat → scan_once f s ≠ Raise out_of_fuel)
  ∧ (∀ acc s, (2 * String.length s + 2 ≤ f)%nat →
              array_items f acc s ≠ Raise out_of_fuel)
  ∧ (∀ acc s, (2 * String.length s + 2 ≤ f)%nat →
              object_items f acc s ≠ Raise out_of_fuel).
Proof.
  induction f as [|f (IHv & IHa & IHo)]; [split_and!; intros; lia|].
  destruct (scan_shorter f) as (Shv & Sha & Sho).
  split_and!.
  - intros s Hf. cbn [scan_once].
    destruct s as [|c s']; [done|]. simpl in Hf.
    destruct (Ascii.eqb c "034").
    { pose proof (scanstring_fuel s' EmptyString) as Hstr.
      destruct (scanstring EmptyString s') as [[str rest]|e]; [done|].
      intros [= ->]. by apply Hstr. }
    destruct (Ascii.eqb c "{").
    { pose proof (skip_ws_length s') as Hws.
      destruct (skip_ws s') as [|c' rest]; [done|].
      destruct (Ascii.eqb c' "}"); [done|].
      apply IHo. simpl in *. lia. }
    destruct (Ascii.eqb c "[").
    { pose proof (skip_ws_length s') as Hws.
      destruct (skip_ws s') as [|c' rest]; [done|].
      destruct (Ascii.eqb c' "]"); [done|].
      apply IHa. simpl in *. lia. }
    destruct (strip_prefix "null" _); [done|].
    destruct (strip_prefix "true" _); [done|].
    destruct (strip_prefix "false" _); [done|].
    apply scan_number_fuel.
  - intros acc s Hf. cbn [array_items].
    pose proof (IHv s) as Hv.
    destruct (scan_once f s) as [[v1 r1]|] eqn:Hscan.
    + apply Shv in Hscan. pose proof (skip_ws_length r1) as Hws.
      destruct (skip_ws r1) as [|c rest]; [done|].
      destruct (Ascii.eqb c "]"); [done|].
      destruct (Ascii.eqb c ","); [|done].
      apply IHa. pose proof (skip_ws_length rest). simpl in *. lia.
    + apply Hv. lia.
  - intros acc s Hf. cbn [object_items].
    destruct s as [|q s']; [done|].
    destruct (negb (Ascii.eqb q "034")); [done|].
    pose proof (scanstring_fuel s' EmptyString) as Hstr.
    destruct (scanstring EmptyString s') as [[k r1]|e] eqn:Hk;
      [|intros [= ->]; by apply Hstr].
    apply scanstring_shorter in Hk. pose proof (skip_ws_length r1) as Hws1.
    destruct (skip_ws r1) as [|c r2]; [done|].
    destruct (negb (Ascii.eqb c ":")); [done|].
    pose proof (skip_ws_length r2) as Hws2.
    pose proof (IHv (skip_ws r2)) as Hv.
    destruct (scan_once f (skip_ws r2)) as [[v1 r3]|] eqn:Hscan.
    + apply Shv in Hscan. pose proof (skip_ws_length r3) as Hws3.
      destruct (skip_ws r3) as [|c' rest]; [done|].
      destruct (Ascii.eqb c' "}"); [done|].
      destruct (Ascii.eqb c' ","); [|done].
      apply IHo. pose proof (skip_ws_length rest). simpl in *. lia.
    + apply Hv. simpl in *. lia.
Qed.

(** [loads] gives its decoder enough fuel: it never stops for lack of it. *)
Lemma loads_fuel_suffices s : loads s ≠ Raise out_of_fuel.
Proof.
  unfold loads.
  pose proof (proj1 (scan_fuel (2 * String.length s + 2)) (skip_ws s)) as Hv.
  pose proof (skip_ws_length s).
  destruct (scan_once _ (skip_ws s)) as [[v rest]|e].
  - by destruct (skip_ws rest).
  - intros [= ->]. apply Hv; [lia|done].
Qed.

End Decoder.

(* ===================================================================== *)
(** * Properties of [list.insert] *)
(* ===================================================================== *)

Section ListInsert.
Context {A : Type}.
Implicit Types (l : list A) (x y : A) (i : Z).

Lemma insert_index_le i n : (insert_index i n ≤ n)%nat.
Proof.
  unfold insert_index. destruct (Z.ltb_spec i 0); lia.
Qed.

Lemma insert_index_in_range i n :
  0 ≤ i ≤ Z.of_nat n → insert_index i n = Z.to_nat i.
Proof.
  intros [Hlo Hhi]. unfold insert_index.
  destruct (Z.ltb_spec i 0); lia.
Qed.

Lemma length_list_insert i x l :
  length (list_insert i x l) = S (length l).
Proof.
  unfold list_insert. pose proof (insert_index_le i (length l)).
  rewrite length_app, length_take. simpl. rewrite length_drop. lia.
Qed.

(** The new element sits at the insertion index. *)
Lemma lookup_list_insert_new i x l :
  list_insert i x l !! insert_index i (length l) = Some x.
Proof.
  unfold list_insert. pose proof (insert_index_le i (length l)).
  rewrite lookup_app_r; rewrite length_take; [|lia].
  replace (_ - _)%nat with 0%nat by lia. done.
Qed.

(** The elements before the insertion index stay. *)
Lemma lookup_list_insert_before i x l (a : nat) :
  (a < insert_index i (length l))%nat →
  list_insert i x l !! a = l !! a.
Proof.
  intros Ha. unfold list_insert.
  pose proof (insert_index_le i (length l)).
  rewrite lookup_app_l; [|rewrite length_take; lia].
  by rewrite lookup_take_lt.
Qed.

(** The elements from the insertion index on move one place right. *)
Lemma lookup_list_insert_after i x l (a : nat) :
  (insert_index i (length l) ≤ a)%nat →
  list_insert i x l !! S a = l !! a.
Proof.
  intros Ha. unfold list_insert.
  pose proof (insert_index_le i (length l)).
  rewrite lookup_app_r; rewrite length_take; [|lia].
  replace (S a - _)%nat
    with (S (a - insert_index i (length l))) by lia.
  simpl. rewrite lookup_drop. f_equal. lia.
Qed.

Lemma lookup_list_insert_shifted i x l (a : nat) :
  list_insert i x l !! shifted (insert_index i (length l)) a = l !! a.
Proof.
  unfold shifted. case_decide.
  - by apply lookup_list_insert_before.
  - apply lookup_list_insert_after. lia.
Qed.

Lemma shifted_mono k (a b : nat) :
  (a < b)%nat → (shifted k a < shifted k b)%nat.
Proof. unfold shifted. repeat case_decide; lia. Qed.

Lemma shifted_ge k (a : nat) : (a ≤ shifted k a)%nat.
Proof. unfold shifted. case_decide; lia. Qed.

Lemma list_insert_perm i x l : list_insert i x l ≡ₚ x :: l.
Proof.
  unfold list_insert.
  rewrite <- Permutation_middle. by rewrite take_drop.
Qed.

Lemma insert_all_app (ins1 ins2 : list (Z * A)) l :
  insert_all (ins1 ++ ins2) l = insert_all ins2 (insert_all ins1 l).
Proof. unfold insert_all. by rewrite foldl_app. Qed.

Lemma length_insert_all (ins : list (Z * A)) l :
  length (insert_all ins l) = (length l + length ins)%nat.
Proof.
  revert l. induction ins as [|[p x] ins IH]; intros l; simpl; [lia|].
  unfold insert_all in *. simpl. rewrite IH, length_list_insert. lia.
Qed.

Lemma insert_all_perm (ins : list (Z * A)) l :
  insert_all ins l ≡ₚ l ++ ins.*2.
Proof.
  revert l. induction ins as [|[p x] ins IH]; intros l; simpl.
  - by rewrite app_nil_r.
  - unfold insert_all in *. simpl. rewrite IH, list_insert_perm.
    by rewrite <- Permutation_middle.
Qed.

(** Insertions never move an element to the left, and they keep the
    order of the elements that are there. *)
Lemma insert_all_keeps_order (ins : list (Z * A)) l (a b : nat) x y :
  l !! a = Some x → l !! b = Some y → (a < b)%nat →
  ∃ a' b', insert_all ins l !! a' = Some x
           ∧ insert_all ins l !! b' = Some y
           ∧ (a' < b')%nat ∧ (a ≤ a')%nat.
Proof.
  revert l a b. induction ins as [|[p z] ins IH]; intros l a b Ha Hb Hab.
  - exists a, b. simpl. auto.
  - unfold insert_all in *. simpl.
    pose (k := insert_index p (length l)).
    destruct (IH (list_insert p z l) (shifted k a) (shifted k b))
      as (a' & b' & Ha' & Hb' & Hlt & Hge).
    + unfold k. by rewrite lookup_list_insert_shifted.
    + unfold k. by rewrite lookup_list_insert_shifted.
    + by apply shifted_mono.
    + exists a', b'. repeat split; try done.
      pose proof (shifted_ge k a). lia.
Qed.

Lemma insert_all_keeps (ins : list (Z * A)) l (a : nat) x :
  l !! a = Some x →
  ∃ a', insert_all ins l !! a' = Some x ∧ (a ≤ a')%nat.
Proof.
  revert l a. induction ins as [|[p z] ins IH]; intros l a Ha.
  - exists a. simpl. auto.
  - unfold insert_all in *. simpl.
    pose (k := insert_index p (length l)).
    destruct (IH (list_insert p z l) (shifted k a)) as (a' & Ha' & Hge).
    + unfold k. by rewrite lookup_list_insert_shifted.
    + exists a'. split; [done|]. pose proof (shifted_ge k a). lia.
Qed.

End ListInsert.

(* ===================================================================== *)
(** * The merge loop *)
(* ===================================================================== *)

Section Merge.
Import i3pystatus.
Implicit Types (mods : list Module_.t) (items : list json).

Lemma list_insert_fmap {A B} (f : A → B) i x (l : list A) :
  f <$> list_insert i x l = list_insert i (f x) (f <$> l).
Proof.
  unfold list_insert.
  by rewrite fmap_app, fmap_cons, fmap_take, fmap_drop, length_fmap.
Qed.

Lemma insert_all_fmap {A B} (f : A → B) (ins : list (Z * A)) (l : list A) :
  f <$> insert_all ins l = insert_all (prod_map id f <$> ins) (f <$> l).
Proof.
  revert l. induction ins as [|[p x] ins IH]; intros l; [done|].
  unfold insert_all in *. simpl. by rewrite IH, list_insert_fmap.
Qed.

(** On an array, the loop is the sequence of its insertions. *)
Lemma merge_array mods items :
  merge mods (JArr items) = Ok (JArr (insert_all (insertions mods) items)).
Proof.
  revert items. induction mods as [|m mods IH]; intros items; [done|].
  simpl. by rewrite IH.
Qed.

Lemma tagged_insertions_cons first m mods :
  tagged_insertions first (m :: mods)
  = (Module_.position m, (FromModule first, Module_.output m))
    :: tagged_insertions (S first) mods.
Proof.
  unfold tagged_insertions. rewrite imap_cons. f_equal.
  - by rewrite Nat.add_0_r.
  - apply imap_ext. intros k x _. simpl. do 3 f_equal. lia.
Qed.

Lemma tagged_insertions_app first mods1 mods2 :
  tagged_insertions first (mods1 ++ mods2)
  = tagged_insertions first mods1
    ++ tagged_insertions (first + length mods1) mods2.
Proof.
  unfold tagged_insertions. rewrite imap_app. f_equal.
  apply imap_ext. intros k x _. simpl. do 3 f_equal. lia.
Qed.

Lemma length_tagged_insertions first mods :
  length (tagged_insertions first mods) = length mods.
Proof. unfold tagged_insertions. by rewrite length_imap. Qed.

Lemma tagged_insertions_values first mods :
  prod_map id snd <$> tagged_insertions first mods = insertions mods.
Proof.
  unfold tagged_insertions, insertions. rewrite fmap_imap.
  rewrite <- imap_const. by apply imap_ext.
Qed.

Lemma tagged_insertions_origins first mods :
  (tagged_insertions first mods).*2.*1
  = FromModule <$> seq first (length mods).
Proof.
  revert first. induction mods as [|m mods IH]; intros first; [done|].
  rewrite tagged_insertions_cons. simpl. by rewrite IH.
Qed.

Lemma tagged_items_values items : (tagged_items items).*2 = items.
Proof.
  unfold tagged_items. rewrite fmap_imap.
  rewrite <- (list_fmap_id items) at 2. rewrite <- imap_const.
  by apply imap_ext.
Qed.

Lemma tagged_items_origins items :
  (tagged_items items).*1 = FromHost <$> seq 0 (length items).
Proof.
  unfold tagged_items. rewrite fmap_imap.
  rewrite <- (imap_seq_0 items FromHost). by apply imap_ext.
Qed.

(** Forgetting the origins gives the array that [merge] computes. *)
Lemma merge_tagged_values mods items :
  (merge_tagged mods items).*2 = insert_all (insertions mods) items.
Proof.
  unfold merge_tagged.
  by rewrite insert_all_fmap, tagged_insertions_values, tagged_items_values.
Qed.

Lemma FromHost_inj : Inj (=) (=) FromHost.
Proof. by intros ?? [=]. Qed.

Lemma FromModule_inj : Inj (=) (=) FromModule.
Proof. by intros ?? [=]. Qed.

(** Every origin occurs once in the merged array. *)
Lemma merge_tagged_NoDup mods items : NoDup (merge_tagged mods items).*1.
Proof.
  unfold merge_tagged. rewrite insert_all_perm, fmap_app.
  rewrite tagged_items_origins, tagged_insertions_origins.
  apply NoDup_app. split_and!.
  - apply (@NoDup_fmap_2 _ _ FromHost FromHost_inj), NoDup_seq.
  - intros o [i [-> _]]%list_elem_of_fmap [k [? _]]%list_elem_of_fmap.
    discriminate.
  - apply (@NoDup_fmap_2 _ _ FromModule FromModule_inj), NoDup_seq.
Qed.

Lemma output_at_unique mods items k i i' :
  output_at mods items k i → output_at mods items k i' → i = i'.
Proof.
  intros [x Hx] [x' Hx'].
  apply (NoDup_lookup _ i i' (FromModule k) (merge_tagged_NoDup mods items));
    rewrite list_lookup_fmap.
  - by rewrite Hx.
  - by rewrite Hx'.
Qed.

Lemma output_at_value mods items k i :
  output_at mods items k i →
  ∃ m, mods !! k = Some m
       ∧ insert_all (insertions mods) items !! i = Some (Module_.output m).
Proof.
  intros [x Hx].
  assert (Hin : (FromModule k, x) ∈ merge_tagged mods items)
    by (apply list_elem_of_lookup; eauto).
  unfold merge_tagged in Hin. rewrite insert_all_perm in Hin.
  apply elem_of_app in Hin as [Hin|Hin].
  - unfold tagged_items in Hin.
    apply elem_of_lookup_imap in Hin as (? & ? & ? & _). discriminate.
  - apply list_elem_of_fmap in Hin as ([p [o y]] & Heq & Hin).
    simpl in Heq. injection Heq as <- <-.
    unfold tagged_insertions in Hin.
    apply elem_of_lookup_imap in Hin as (k' & m & Heq & Hm).
    injection Heq as _ -> ->. simpl in *. exists m. split; [done|].
    rewrite <- merge_tagged_values, list_lookup_fmap, Hx. done.
Qed.

End Merge.

Section Stacking.
Import i3pystatus.
Implicit Types (mods : list Module_.t) (items : list json).

Lemma register_instance self r position w :
  register self (Instance r) position [] [] w
  = registered r (mk_world (modules w ++ [r])
                    (alter (set_position position) r (heap w))
                    (threads w)).
Proof. done. Qed.

Lemma registered_keeps r w :
  ∃ ths, registered r w = (Ok tt, mk_world (modules w) (heap w) ths).
Proof.
  unfold registered. destruct w as [ms h ths]; simpl.
  destruct (h !! r) as [m|]; [|by eauto].
  destruct (issubclass _ _); by eauto.
Qed.

Lemma merge_foldl mods items :
  merge mods (JArr items)
  = Ok (JArr (foldl (λ arr m, list_insert (Module_.position m)
                                 (Module_.output m) arr) items mods)).
Proof.
  revert items. induction mods as [|m mods IH]; intros items; [done|].
  cbn [merge foldl]. apply IH.
Qed.

Lemma merge_snoc mods m items before :
  merge mods (JArr items) = Ok (JArr before) →
  merge (mods ++ [m]) (JArr items)
  = Ok (JArr (list_insert (Module_.position m) (Module_.output m) before)).
Proof.
  rewrite !merge_foldl, foldl_app. by intros [= ->].
Qed.

(** Registering an instance that is not yet in the registry leaves the
    entries before it as they are and adds the instance, with the position
    it is registered at, as the last one. *)
Lemma register_fresh self r position m w :
  heap w !! r = Some m → r ∉ modules w →
  ∃ w',
    register self (Instance r) position [] [] w = (Ok tt, w')
    ∧ registry self w' = registry self w ++ [set_position position m].
Proof.
  intros Hm Hfresh. rewrite register_instance.
  destruct (registered_keeps r
              (mk_world (modules w ++ [r])
                 (alter (set_position position) r (heap w)) (threads w)))
    as [ths ->].
  eexists. split; [done|].
  unfold registry. cbn [modules heap]. rewrite omap_app. f_equal.
  - clear Hm. induction (modules w) as [|r' rs IH]; [done|].
    apply not_elem_of_cons in Hfresh as [Hne Hfresh]. cbn [omap list_omap].
    by rewrite lookup_alter_ne, IH.
  - cbn [omap list_omap]. by rewrite lookup_alter_eq, Hm.
Qed.

(** C3. The merge step takes the registered modules in registration
    order and inserts the current output of each into the tick array at
    the index given by the module's position, as [list.insert] does. The
    merged array is the array of the tick with the insertions applied one
    after the other, first module first: with no module it is the array of
    the tick itself, and the module registered last is inserted last, into
    the array that the modules before it have produced. An insertion makes
    the array one element longer; for a position within the array the
    output is at that very index, the elements before it stay and the
    elements from it on move one place to the right. Registration fixes
    the order: an instance that is registered becomes the last entry of the
    registry, and its output is inserted, at the position it was registered
    at, into what the merge gave before. In particular, modules registered
    at positions 0 and 1 with outputs ["A"] and ["B"] turn the empty array
    into [["A", "B"]]. *)
Theorem merge_inserts_in_registration_order :
  (∀ mods items,
     merge mods (JArr items)
     = Ok (JArr (foldl (λ arr m, list_insert (Module_.position m)
                                    (Module_.output m) arr) items mods)))
  ∧ (∀ items, merge [] (JArr items) = Ok (JArr items))
  ∧ (∀ mods m items before,
       merge mods (JArr items) = Ok (JArr before) →
       merge (mods ++ [m]) (JArr items)
       = Ok (JArr (list_insert (Module_.position m) (Module_.output m)
                     before)))
  ∧ (∀ (p : Z) (x : json) before,
       length (list_insert p x before) = S (length before)
       ∧ (0 ≤ p ≤ Z.of_nat (length before) →
          list_insert p x before !! Z.to_nat p = Some x
          ∧ (∀ i : nat, (i < Z.to_nat p)%nat →
                        list_insert p x before !! i = before !! i)
          ∧ (∀ i : nat, (Z.to_nat p ≤ i)%nat →
                        list_insert p x before !! S i = before !! i)))
  ∧ (∀ self r position m w items before,
       heap w !! r = Some m → r ∉ modules w →
       merge (registry self w) (JArr items) = Ok (JArr before) →
       ∃ w',
         register self (Instance r) position [] [] w = (Ok tt, w')
         ∧ registry self w' = registry self w ++ [set_position position m]
         ∧ merge (registry self w') (JArr items)
           = Ok (JArr (list_insert position (Module_.output m) before)))
  ∧ (∀ self,
       ∃ w1 w2,
         register self (Instance 0%nat) 0 [] [] world_AB = (Ok tt, w1)
         ∧ register self (Instance 1%nat) 1 [] [] w1 = (Ok tt, w2)
         ∧ merge (registry self w2) (JArr [])
           = Ok (JArr [JStr "A"; JStr "B"])).
Proof.
  split_and!.
  - apply merge_foldl.
  - done.
  - apply merge_snoc.
  - intros p x before. split; [apply length_list_insert|].
    intros Hrange. rewrite <- (insert_index_in_range _ _ Hrange).
    split_and!.
    + apply lookup_list_insert_new.
    + intros i Hi. by apply lookup_list_insert_before.
    + intros i Hi. by apply lookup_list_insert_after.
  - intros self r position m w items before Hm Hfresh Hbefore.
    destruct (register_fresh self r position m w Hm Hfresh)
      as (w' & Hreg & Hregistry).
    exists w'. split_and!; [done..|].
    rewrite Hregistry. by rewrite (merge_snoc _ _ _ _ Hbefore).
  - intros self. eexists _, _. split_and!.
    + vm_compute. reflexivity.
    + vm_compute. reflexivity.
    + vm_compute. reflexivity.
Qed.

Lemma merge_inserts_in_registration_order_witness :
  merge ([module_with (JStr "A") 0] ++ [module_with (JStr "B") 1])
        (JArr [JInt 7])
  = Ok (JArr [JStr "A"; JStr "B"; JInt 7])
  ∧ ∃ w',
      register (__init__ false 1 [] []) (Instance 1%nat) 5 [] []
        (mk_world [0%nat] (heap world_AB) [])
      = (Ok tt, w')
      ∧ registry (__init__ false 1 [] []) w'
        = [module_with (JStr "A") 0] ++ [module_with (JStr "B") 5]
      ∧ merge (registry (__init__ false 1 [] []) w') (JArr [JInt 7])
        = Ok (JArr [JStr "A"; JInt 7; JStr "B"]).
Proof.
  split.
  - exact (proj1 (proj2 (proj2 merge_inserts_in_registration_order))
             [module_with (JStr "A") 0] (module_with (JStr "B") 1)
             [JInt 7] [JStr "A"; JInt 7] eq_refl).
  - apply (proj1 (proj2 (proj2 (proj2 (proj2
             merge_inserts_in_registration_order))))
             (__init__ false 1 [] []) 1%nat 5 (module_with (JStr "B") 0)
             (mk_world [0%nat] (heap world_AB) []) [JInt 7]
             [JStr "A"; JInt 7]).
    + reflexivity.
    + vm_compute. intros Hin. inversion Hin as [|? ? ? Hnil]; inversion Hnil.
    + reflexivity.
Defined.

End Stacking.

Section StackingOrder.
Import i3pystatus.
Implicit Types (mods : list Module_.t) (items : list json).

(** The registry split at two of its entries. *)
Lemma registry_split mods (k1 k2 : nat) m1 m2 :
  mods !! k1 = Some m1 → mods !! k2 = Some m2 → (k1 < k2)%nat →
  ∃ l1 l2 l3,
    mods = l1 ++ m1 :: l2 ++ m2 :: l3
    ∧ length l1 = k1 ∧ (k1 + S (length l2))%nat = k2.
Proof.
  intros H1 H2 Hlt.
  pose proof (lookup_lt_Some _ _ _ H1) as Hk1.
  assert (Hd : drop (S k1) mods !! (k2 - S k1)%nat = Some m2).
  { rewrite lookup_drop, <- H2. f_equal. lia. }
  pose proof (lookup_lt_Some _ _ _ Hd) as Hk2.
  exists (take k1 mods), (take (k2 - S k1) (drop (S k1) mods)),
         (drop (S (k2 - S k1)) (drop (S k1) mods)).
  split_and!.
  - by rewrite (take_drop_middle _ _ _ Hd), (take_drop_middle _ _ _ H1).
  - rewrite length_take. lia.
  - rewrite length_take. lia.
Qed.

(** C1, as the code has it. Of two modules registered with the same
    position [p], where [p] lies within the array at the moment the
    first of them is inserted, the one registered later ends up to the
    LEFT of the earlier one: its insertion at the shared index pushes the
    earlier output, and everything behind it, one place to the right.
    Both outputs are in the merged array, each at one index only. *)
Theorem later_module_stacks_left mods items (k1 k2 : nat) m1 m2 :
  mods !! k1 = Some m1 → mods !! k2 = Some m2 → (k1 < k2)%nat →
  Module_.position m1 = Module_.position m2 →
  0 ≤ Module_.position m1 ≤ Z.of_nat (length items + k1) →
  ∃ merged (i1 i2 : nat),
    merge mods (JArr items) = Ok (JArr merged)
    ∧ output_at mods items k1 i1 ∧ merged !! i1 = Some (Module_.output m1)
    ∧ output_at mods items k2 i2 ∧ merged !! i2 = Some (Module_.output m2)
    ∧ (i2 < i1)%nat
    ∧ (∀ i, output_at mods items k1 i → i = i1)
    ∧ (∀ i, output_at mods items k2 i → i = i2).
Proof.
  intros H1 H2 Hlt Hpos Hrange.
  destruct (registry_split _ _ _ _ _ H1 H2 Hlt)
    as (l1 & l2 & l3 & Hmods & Hl1 & Hl2).
  set (t1 := (FromModule k1, Module_.output m1)).
  set (t2 := (FromModule k2, Module_.output m2)).
  set (p := Module_.position m1) in *.
  (* the array after the modules before [m1], then after [m1] *)
  set (s1 := insert_all (tagged_insertions 0 l1) (tagged_items items)).
  set (s2 := list_insert p t1 s1).
  set (s3 := insert_all (tagged_insertions (S k1) l2) s2).
  set (s4 := list_insert p t2 s3).
  assert (Hall : merge_tagged mods items
                 = insert_all (tagged_insertions (S k2) l3) s4).
  { unfold merge_tagged. rewrite Hmods.
    rewrite tagged_insertions_app, insert_all_app. fold s1.
    rewrite tagged_insertions_cons.
    change (0 + length l1)%nat with (length l1). rewrite Hl1.
    rewrite tagged_insertions_app, tagged_insertions_cons.
    replace (S k1 + length l2)%nat with k2 by lia.
    unfold s4, s3, s2, t1, t2, insert_all. simpl.
    rewrite foldl_app. simpl. by rewrite <- Hpos. }
  assert (Hlen1 : length s1 = (length items + k1)%nat).
  { unfold s1. rewrite length_insert_all, length_tagged_insertions.
    unfold tagged_items. rewrite length_imap. lia. }
  assert (Hs2 : s2 !! Z.to_nat p = Some t1).
  { unfold s2. rewrite <- (insert_index_in_range p (length s1)).
    - apply lookup_list_insert_new.
    - rewrite Hlen1. exact Hrange. }
  destruct (insert_all_keeps (tagged_insertions (S k1) l2) s2 _ _ Hs2)
    as (a & Ha & Hge).
  change (s3 !! a = Some t1) in Ha.
  assert (Halen : (a < length s3)%nat) by (by eapply lookup_lt_Some).
  assert (Hidx : insert_index p (length s3) = Z.to_nat p).
  { apply insert_index_in_range. lia. }
  assert (H4new : s4 !! Z.to_nat p = Some t2).
  { unfold s4. rewrite <- Hidx. apply lookup_list_insert_new. }
  assert (H4old : s4 !! S a = Some t1).
  { unfold s4. rewrite lookup_list_insert_after; [done|]. lia. }
  destruct (insert_all_keeps_order (tagged_insertions (S k2) l3) s4
              (Z.to_nat p) (S a) t2 t1 H4new H4old)
    as (i2 & i1 & Hi2 & Hi1 & Hi & _); [lia|].
  rewrite <- Hall in Hi1, Hi2.
  assert (Ho1 : output_at mods items k1 i1) by (by exists (Module_.output m1)).
  assert (Ho2 : output_at mods items k2 i2) by (by exists (Module_.output m2)).
  exists (insert_all (insertions mods) items), i1, i2.
  split_and!; try done.
  - apply merge_array.
  - by rewrite <- merge_tagged_values, list_lookup_fmap, Hi1.
  - by rewrite <- merge_tagged_values, list_lookup_fmap, Hi2.
  - intros i Hio. exact (output_at_unique _ _ _ _ _ Hio Ho1).
  - intros i Hio. exact (output_at_unique _ _ _ _ _ Hio Ho2).
Qed.

Lemma later_module_stacks_left_witness :
  ∃ merged (i1 i2 : nat),
    merge [module_with (JStr "A") 1; module_with (JStr "B") 1]
          (JArr [JInt 10; JInt 20]) = Ok (JArr merged)
    ∧ merged !! i1 = Some (JStr "A")
    ∧ merged !! i2 = Some (JStr "B")
    ∧ (i2 < i1)%nat.
Proof.
  destruct (later_module_stacks_left
              [module_with (JStr "A") 1; module_with (JStr "B") 1]
              [JInt 10; JInt 20] 0 1
              (module_with (JStr "A") 1) (module_with (JStr "B") 1))
    as (merged & i1 & i2 & Hm & _ & H1 & _ & H2 & Hlt & _);
    [reflexivity | reflexivity | lia | reflexivity | simpl; lia |].
  exists merged, i1, i2. auto.
Defined.

(** The stacking rule as stated fails for two modules at position 0
    merged into the empty array: the result is [["B", "A"]], with the
    output of the module registered later on the left. *)
Lemma later_stacks_right_fails :
  merge [module_with (JStr "A") 0; module_with (JStr "B") 0] (JArr [])
  = Ok (JArr [JStr "B"; JStr "A"])
  ∧ ¬ later_stacks_right
        [module_with (JStr "A") 0; module_with (JStr "B") 0] [].
Proof.
  split; [reflexivity|].
  intros Hright.
  specialize (Hright 0%nat 1%nat (module_with (JStr "A") 0)
                (module_with (JStr "B") 0) 1%nat 0%nat).
  assert (1 < 0)%nat; [|lia].
  apply Hright; try reflexivity; try lia.
  - by exists (JStr "A").
  - by exists (JStr "B").
Qed.

End StackingOrder.

(* ===================================================================== *)
(** * The line channel *)
(* ===================================================================== *)

Section LineChannelProperties.
Import IOHandler.

Lemma str_is_empty_spec s : str_is_empty s = true ↔ s = EmptyString.
Proof. destruct s; simpl; split; congruence. Qed.

(** [read_line], case by case on what the stream delivers. *)
Lemma read_line_cases self :
  read_line self =
  match inp self with
  | [] => (Raise EOFError, self)
  | Interrupt :: rest => (Raise EOFError, mk rest (out self))
  | Line raw :: rest =>
      (if str_is_empty (strip raw) then Raise EOFError
       else Ok (strip raw), mk rest (out self))
  end.
Proof.
  destruct self as [[|[raw|] rest] o]; try reflexivity.
  unfold read_line, bind, try_except, readline, ret, raise. simpl.
  by destruct (str_is_empty (strip raw)).
Qed.

Lemma read_next_cases self :
  read_next self =
  match inp self with
  | [] => (Ok None, self)
  | Interrupt :: rest => (Ok None, mk rest (out self))
  | Line raw :: rest =>
      (if str_is_empty (strip raw) then Ok None
       else Ok (Some (strip raw)), mk rest (out self))
  end.
Proof.
  unfold read_next, try_except, bind. rewrite read_line_cases.
  destruct self as [[|[raw|] rest] o]; try reflexivity. simpl.
  by destruct (str_is_empty (strip raw)).
Qed.

(** With more resumptions than there are events left, the iteration
    over [read()] comes to its end. *)
Lemma read_terminates_fuel fuel self :
  (length (inp self) < fuel)%nat →
  ∃ lines self', read fuel self = (Ok (lines, Exhausted), self').
Proof.
  revert self. induction fuel as [|fuel IH]; intros self Hlt; [lia|].
  cbn [read]. unfold bind at 1. rewrite read_next_cases.
  destruct self as [[|[raw|] rest] o]; cbn [inp out length] in *.
  - by eexists _, _.
  - destruct (str_is_empty (strip raw)); [by eexists _, _|].
    destruct (IH (mk rest o)) as (lines & self' & Hrest); [simpl; lia|].
    unfold bind. rewrite Hrest. by eexists _, _.
  - by eexists _, _.
Qed.

Lemma read_terminates self :
  ∃ lines self',
    read (S (length (inp self))) self = (Ok (lines, Exhausted), self').
Proof. apply read_terminates_fuel. lia. Qed.

(** C6. [read_line] raises [EOFError] in exactly three cases: the stream
    is at its end, an interrupt arrives during the read, or the line is
    empty once stripped. It raises nothing else. One step of the
    generator [read] never raises: an [EOFError] from [read_line] makes the
    generator return, and the iteration over a stream comes to its end
    without an exception. *)
Theorem read_line_end_of_stream self :
  ((read_line self).1 = Raise EOFError ↔
     inp self = []
     ∨ (∃ rest, inp self = Interrupt :: rest)
     ∨ (∃ raw rest, inp self = Line raw :: rest ∧ strip raw = EmptyString))
  ∧ (∀ e, (read_line self).1 = Raise e → e = EOFError)
  ∧ (∀ e, (read_next self).1 ≠ Raise e)
  ∧ ((read_line self).1 = Raise EOFError → (read_next self).1 = Ok None)
  ∧ (∃ lines self',
       read (S (length (inp self))) self = (Ok (lines, Exhausted), self')).
Proof.
  split_and!.
  - rewrite read_line_cases.
    destruct self as [[|[raw|] rest] o]; simpl.
    + naive_solver.
    + destruct (str_is_empty (strip raw)) eqn:He.
      * apply str_is_empty_spec in He. naive_solver.
      * split; [done|]. intros [?|[[? ?]|(? & ? & [= <- <-] & Hs)]]; try done.
        apply str_is_empty_spec in Hs. congruence.
    + naive_solver.
  - intros e. rewrite read_line_cases.
    destruct self as [[|[raw|] rest] o]; simpl; try congruence.
    destruct (str_is_empty (strip raw)); simpl; congruence.
  - intros e. rewrite read_next_cases.
    destruct self as [[|[raw|] rest] o]; simpl; try congruence.
    destruct (str_is_empty (strip raw)); simpl; congruence.
  - rewrite read_line_cases, read_next_cases.
    destruct self as [[|[raw|] rest] o]; simpl; try congruence.
    destruct (str_is_empty (strip raw)); simpl; congruence.
  - apply read_terminates.
Qed.

Lemma read_line_end_of_stream_witness :
  (read_line (mk [Line ("  " +:+ nl)] [])).1 = Raise EOFError
  ∧ (read_next (mk [Line ("  " +:+ nl)] [])).1 = Ok None.
Proof.
  pose proof (read_line_end_of_stream (mk [Line ("  " +:+ nl)] []))
    as (Hiff & _ & _ & Hnext & _).
  assert (Heof : (read_line (mk [Line ("  " +:+ nl)] [])).1 = Raise EOFError).
  { apply Hiff. right. right. eexists _, _. split; reflexivity. }
  split; [exact Heof | exact (Hnext Heof)].
Defined.

End LineChannelProperties.

(* ===================================================================== *)
(** * The standalone simulator *)
(* ===================================================================== *)

Section Standalone.
Import StandaloneIO.

Lemma read_line_steady self :
  2 ≤ n self →
  read_line self
  = (Ok ",[]", mk (base self) (n self + 1) (interval self) (sleeps self)).
Proof.
  intros Hn. unfold read_line. cbn [n].
  replace (Z.min (n self + 1) (Z.of_nat (length proto) - 1)) with 3
    by (simpl; lia).
  reflexivity.
Qed.

Lemma read_lines_steady k self :
  2 ≤ n self → read_lines k self = replicate k (Ok ",[]").
Proof.
  revert self. induction k as [|k IH]; intros self Hn; [done|].
  cbn [read_lines]. rewrite read_line_steady by done.
  rewrite IH by (simpl; lia). done.
Qed.

Lemma read_lines_S k self :
  read_lines (S k) self
  = (read_line self).1 :: read_lines k (read_line self).2.
Proof. cbn [read_lines]. by destruct (read_line self). Qed.

(** C4. From its initial state the simulator returns the version header,
    then the opening bracket, then [[]], and [,[]] at the fourth read and
    at every read after it. *)
Theorem standalone_read_sequence seconds stdin signals (k : nat) :
  read_lines (3 + k) (__init__ seconds stdin signals)
  = [ Ok ("{" +:+ dq +:+ "version" +:+ dq +:+ ": 1}"); Ok "["; Ok "[]" ]
    ++ replicate k (Ok ",[]").
Proof.
  change (3 + k)%nat with (S (S (S k))).
  set (b := IOHandler.__init__ stdin []).
  assert (H0 : read_line (__init__ seconds stdin signals)
               = (Ok ("{" +:+ dq +:+ "version" +:+ dq +:+ ": 1}"),
                  mk b 0 seconds signals)) by reflexivity.
  assert (H1 : read_line (mk b 0 seconds signals)
               = (Ok "[", mk b 1 seconds signals)) by reflexivity.
  assert (H2 : read_line (mk b 1 seconds signals)
               = (Ok "[]", mk b 2 seconds signals)) by reflexivity.
  rewrite read_lines_S, H0. cbn [fst snd].
  rewrite read_lines_S, H1. cbn [fst snd].
  rewrite read_lines_S, H2. cbn [fst snd].
  rewrite read_lines_steady by (simpl; lia). done.
Qed.

End Standalone.

(* ===================================================================== *)
(** * The JSON tick pipeline *)
(* ===================================================================== *)

Section PipelineProperties.
Import i3pystatus.

Lemma handler_read_line_ok raw rest out :
  strip raw ≠ EmptyString →
  IOHandler.read_line (IOHandler.mk (Line raw :: rest) out)
  = (Ok (strip raw), IOHandler.mk rest out).
Proof.
  intros Hne. rewrite read_line_cases. simpl.
  destruct (str_is_empty (strip raw)) eqn:He; [|done].
  by apply str_is_empty_spec in He.
Qed.

(** On the engine's channel the handshake is that of the handler behind
    it. *)
Lemma handshake_dispatch h :
  JSONIO.__init__ (Handler h)
  = let (r, h') := JSONIO.__init__ h in (r, Handler h').
Proof.
  unfold JSONIO.__init__, bind.
  cbn [read_line write_line io_channel IOHandler_channel].
  unfold lift_handler.
  destruct (IOHandler.read_line h) as [[line1|e1] h1]; [|done].
  unfold IOHandler.write_line at 1 3.
  destruct (IOHandler.read_line _) as [[line2|e2] h2]; done.
Qed.

(** One echo of the handshake, for a line that is not empty. *)
Ltac echo_line :=
  rewrite handler_read_line_ok by done;
  unfold IOHandler.write_line at 1;
  cbn [IOHandler.inp IOHandler.out].

(** C5. Constructing the pipeline succeeds exactly when the channel
    delivers two lines that are not empty; it then has read the first line
    and written it back as [read_line] returned it, then done the same with
    the second line, and nothing else: two events are consumed and two
    frames are written. [run] constructs the pipeline before it enters the
    tick loop, which therefore starts on the third line. *)
Theorem handshake_echoes_two_lines h h' :
  (JSONIO.__init__ h = (Ok tt, h') ↔
     ∃ raw1 raw2 rest,
       IOHandler.inp h = Line raw1 :: Line raw2 :: rest
       ∧ strip raw1 ≠ EmptyString ∧ strip raw2 ≠ EmptyString
       ∧ h' = IOHandler.mk rest
                (IOHandler.out h ++ [strip raw1 +:+ nl; strip raw2 +:+ nl]))
  ∧ (∀ self w fuel,
       io self = Handler h → JSONIO.__init__ h = (Ok tt, h') →
       run self w fuel
       = JSONIO.read fuel (merge (registry self w)) (Handler h')).
Proof.
  split.
  - split.
    + unfold JSONIO.__init__, bind.
      cbn [read_line write_line IOHandler_channel].
      rewrite read_line_cases.
      destruct h as [[|[raw1|] rest1] out]; cbn [IOHandler.inp IOHandler.out];
        try discriminate.
      destruct (str_is_empty (strip raw1)) eqn:He1; [discriminate|].
      unfold IOHandler.write_line at 1. cbn [IOHandler.inp IOHandler.out].
      rewrite read_line_cases. cbn [IOHandler.inp IOHandler.out].
      destruct rest1 as [|[raw2|] rest]; try discriminate.
      destruct (str_is_empty (strip raw2)) eqn:He2; [discriminate|].
      unfold IOHandler.write_line. cbn [IOHandler.inp IOHandler.out].
      intros [= <-]. exists raw1, raw2, rest. split_and!; try done.
      * intros Hs. apply str_is_empty_spec in Hs. congruence.
      * intros Hs. apply str_is_empty_spec in Hs. congruence.
      * by rewrite <- app_assoc.
    + intros (raw1 & raw2 & rest & Hinp & H1 & H2 & ->).
      destruct h as [inp out]. cbn [IOHandler.inp IOHandler.out] in *.
      subst inp. unfold JSONIO.__init__, bind.
      cbn [read_line write_line IOHandler_channel].
      echo_line. echo_line. by rewrite <- app_assoc.
  - intros self w fuel Hio Hinit. unfold run. rewrite Hio.
    unfold bind at 1. by rewrite handshake_dispatch, Hinit.
Qed.

Lemma handshake_echoes_two_lines_witness :
  JSONIO.__init__
    (IOHandler.mk [Line (version_header +:+ nl); Line ("  [" +:+ nl);
                   Line ("[]" +:+ nl)] [])
  = (Ok tt, IOHandler.mk [Line ("[]" +:+ nl)]
              [version_header +:+ nl; "[" +:+ nl]).
Proof.
  apply (proj1 (handshake_echoes_two_lines _ _)).
  exists (version_header +:+ nl), ("  [" +:+ nl), [Line ("[]" +:+ nl)].
  split_and!; [reflexivity | vm_compute; discriminate
              | vm_compute; discriminate | reflexivity].
Defined.

(** An end of stream during the handshake is not caught: it leaves [run]
    as the exception [EOFError]. *)
Lemma handshake_end_of_stream self w fuel out :
  io self = Handler (IOHandler.mk [] out) →
  run self w fuel = (Raise EOFError, Handler (IOHandler.mk [] out)).
Proof. intros Hio. unfold run. by rewrite Hio. Qed.

(** The simulator always completes the handshake: the two framing lines
    are echoed and the counter stands at the first tick. *)
Lemma standalone_handshake seconds stdin signals :
  JSONIO.__init__ (StandaloneIO.__init__ seconds stdin signals)
  = (Ok tt,
     StandaloneIO.mk
       (IOHandler.mk stdin [version_header +:+ nl; "[" +:+ nl])
       1 seconds signals).
Proof. reflexivity. Qed.

Lemma parse_line_written line j inp out :
  loads (if startswith_comma line then str_tail line else line) = Ok j →
  JSONIO.parse_line line (merge []) (IOHandler.mk inp out)
  = (Ok tt,
     IOHandler.mk inp
       (out ++ [((if startswith_comma line then "," else EmptyString)
                 +:+ dumps j) +:+ nl])).
Proof.
  intros Hj. unfold JSONIO.parse_line.
  destruct (startswith_comma line);
    unfold bind, lift; rewrite Hj; reflexivity.
Qed.

(** C2, as the code has it. With no module registered, a tick line is
    written back as its comma prefix, if it has one, followed by what
    [json.dumps] makes of the parsed value, which need not be the input
    byte for byte: [,[{"x":1}]] comes back as [,[{"x": 1}]], with the
    comma kept and a space after the colon; the first tick [[]] comes
    back as [[]], with no comma added. So it is over a whole run. *)
Theorem tick_without_modules_is_reserialised :
  (∀ line j inp out,
     loads (if startswith_comma line then str_tail line else line) = Ok j →
     JSONIO.parse_line line (merge []) (IOHandler.mk inp out)
     = (Ok tt,
        IOHandler.mk inp
          (out ++ [((if startswith_comma line then "," else EmptyString)
                    +:+ dumps j) +:+ nl])))
  ∧ (∀ inp out,
       JSONIO.parse_line tick_x1 (merge []) (IOHandler.mk inp out)
       = (Ok tt, IOHandler.mk inp (out ++ [("," +:+ dumped_x1) +:+ nl])))
  ∧ (∀ inp out,
       JSONIO.parse_line "[]" (merge []) (IOHandler.mk inp out)
       = (Ok tt, IOHandler.mk inp (out ++ ["[]" +:+ nl])))
  ∧ (∀ w,
       modules w = [] →
       run (__init__ false 1
              [Line (version_header +:+ nl); Line ("[" +:+ nl);
               Line ("[]" +:+ nl); Line (tick_x1 +:+ nl)] []) w 3
       = (Ok Exhausted,
          Handler (IOHandler.mk []
                     [version_header +:+ nl; "[" +:+ nl; "[]" +:+ nl;
                      ("," +:+ dumped_x1) +:+ nl]))).
Proof.
  split_and!.
  - apply parse_line_written.
  - intros inp out. by rewrite (parse_line_written _ (JArr [JObj [("x", JInt 1)]])).
  - intros inp out. by rewrite (parse_line_written _ (JArr [])).
  - intros [ms h ths] Hms. simpl in Hms. subst ms. reflexivity.
Qed.

Lemma tick_without_modules_is_reserialised_witness :
  JSONIO.parse_line ",[ 1,2 ]" (merge []) (IOHandler.mk [] [])
  = (Ok tt, IOHandler.mk [] [",[1, 2]" +:+ nl]).
Proof.
  exact (proj1 tick_without_modules_is_reserialised
           ",[ 1,2 ]" (JArr [JInt 1; JInt 2]) [] [] eq_refl).
Defined.

(** The round trip as stated fails on the tick line [,[{"x":1}]]: what is
    written has a space after the colon. *)
Lemma tick_is_not_echoed_byte_for_byte : ¬ echoes_byte_for_byte tick_x1.
Proof.
  intros Hecho. specialize (Hecho [] []).
  rewrite (parse_line_written _ (JArr [JObj [("x", JInt 1)]])) in Hecho
    by reflexivity.
  vm_compute in Hecho. discriminate.
Qed.

End PipelineProperties.

(* ===================================================================== *)
(** * Module settings *)
(* ===================================================================== *)

Section ModuleSettings.
Import Module_.
Implicit Types (kwargs : list (string * json)) (names : list string).

(** The loop over the settings, when every key is recognised: all the
    keys are collected. *)
Lemma set_options_known kwargs self required :
  Forall (λ key, key ∈ self_settings self) kwargs.*1 →
  ∃ self',
    set_options kwargs self required
    = Ok (self', list_to_set kwargs.*1 ∪ required)
    ∧ type self' = type self
    ∧ self_settings self' = self_settings self
    ∧ self_required self' = self_required self.
Proof.
  revert self required.
  induction kwargs as [|[key value] kwargs IH]; intros self required Hall.
  - exists self. split_and!; try done. cbn [set_options]. do 2 f_equal.
    clear. set_solver.
  - apply Forall_cons in Hall as [Hkey Hall]. cbn [set_options].
    rewrite bool_decide_true by done.
    destruct (IH (setattr self key value) ({[key]} ∪ required))
      as (self' & -> & Ht & Hs & Hr); [done|].
    exists self'. split_and!; try done. f_equal. f_equal.
    simpl. clear. set_solver.
Qed.

(** The loop stops at the first key that is not recognised. *)
Lemma set_options_unknown known key value rest self required :
  Forall (λ key, key ∈ self_settings self) known.*1 →
  key ∉ self_settings self →
  set_options (known ++ (key, value) :: rest) self required
  = Raise (ConfigurationError (cls_name (type self)) (Some key)
             None None false).
Proof.
  revert self required.
  induction known as [|[k v] known IH]; intros self required Hall Hkey.
  - cbn [app set_options]. by rewrite bool_decide_false.
  - apply Forall_cons in Hall as [Hk Hall]. cbn [app set_options].
    rewrite bool_decide_true by done.
    by rewrite (IH (setattr self k v)).
Qed.

(** C7, as the code has it. A settings mapping whose first unrecognised
    key is [key] raises the configuration error that names [key]; a
    mapping of recognised keys only that omits a required key raises the
    configuration error that lists exactly the required keys it omits. *)
Theorem module_init_configuration_errors c :
  (∀ known key value rest,
     Forall (λ k, k ∈ setting_names (settings c)) known.*1 →
     key ∉ setting_names (settings c) →
     __init__ c [] (known ++ (key, value) :: rest)
     = Raise (ConfigurationError (cls_name (cls c)) (Some key)
                None None false))
  ∧ (∀ kwargs,
       Forall (λ k, k ∈ setting_names (settings c)) kwargs.*1 →
       missing_keys c kwargs ≠ ∅ →
       __init__ c [] kwargs
       = Raise (ConfigurationError (cls_name (cls c)) None
                  (Some (missing_keys c kwargs)) None false)).
Proof.
  split.
  - intros known key value rest Hknown Hkey.
    unfold __init__.
    replace ((length [] =? 1)%nat && _) with false by done.
    cbn [result_bind].
    by rewrite set_options_unknown.
  - intros kwargs Hknown Hmissing.
    unfold __init__.
    replace ((length [] =? 1)%nat && _) with false by done.
    cbn [result_bind].
    edestruct (set_options_known kwargs) as (self' & -> & Ht & Hs & Hr);
      [exact Hknown|].
    cbn [result_bind]. rewrite Hr, Ht. cbn [self_required type].
    unfold missing_keys in *.
    set (req := list_to_set (required c) : gset string) in *.
    set (given := list_to_set kwargs.*1 : gset string) in *.
    rewrite bool_decide_true.
    + do 3 f_equal. set_solver.
    + intros Hsize. apply Hmissing.
      assert (Heq : (given ∪ ∅) ∩ req = req).
      { apply set_subseteq_size_eq; [set_solver|]. by rewrite Hsize. }
      set_solver.
Qed.

Lemma module_init_configuration_errors_witness :
  __init__ clock_class [] [("format", JStr "%H:%M"); ("colour", JStr "red")]
  = Raise (ConfigurationError "Clock" (Some "colour") None None false)
  ∧ __init__ clock_class [] []
    = Raise (ConfigurationError "Clock" None (Some {[ "format" ]})
               None false).
Proof.
  split.
  - apply (proj1 (module_init_configuration_errors clock_class)
             [("format", JStr "%H:%M")] "colour" (JStr "red") []).
    + repeat constructor.
    + cbn. intros Hin. apply list_elem_of_singleton in Hin. discriminate.
  - replace ({[ "format" ]} : gset string) with (missing_keys clock_class [])
      by (unfold missing_keys; cbn; set_solver).
    apply (proj2 (module_init_configuration_errors clock_class) []).
    + constructor.
    + unfold missing_keys. cbn. set_solver.
Defined.

(** The second rule as stated fails when the mapping also has a key that
    is not recognised: the error names that key and lists no missing one.
    The first rule as stated fails on the second of two unrecognised
    keys: the error names the first. *)
Lemma stated_settings_errors_fail :
  ¬ missing_keys_are_listed clock_class [("colour", JStr "red")]
  ∧ ¬ unknown_key_is_named clock_class
        [("colour", JStr "red"); ("size", JInt 9)].
Proof.
  split.
  - intros Hlisted. unfold missing_keys_are_listed in Hlisted.
    assert (Hne : missing_keys clock_class [("colour", JStr "red")] ≠ ∅).
    { unfold missing_keys. cbn. set_solver. }
    specialize (Hlisted Hne). discriminate.
  - intros Hnamed. specialize (Hnamed "size").
    assert (Hraise :
      __init__ clock_class [] [("colour", JStr "red"); ("size", JInt 9)]
      = Raise (ConfigurationError "Clock" (Some "size") None None false)).
    { apply Hnamed.
      - cbn. set_solver.
      - cbn. set_solver. }
    discriminate.
Qed.

End ModuleSettings.

(* ===================================================================== *)
(** * Finding the class, registering, and the shared registry *)
(* ===================================================================== *)

Section ClassFinderProperties.
Import ClassFinder.

(** [Module.__init__] takes the settings as keyword arguments or as one
    positional mapping, with the same result. *)
Lemma init_positional_mapping c mapping :
  Module_.__init__ c [JObj mapping] [] = Module_.__init__ c [] mapping.
Proof. reflexivity. Qed.

(** C8. What the code does where the claim expects the unique eligible
    class or a configuration error: [search_module] subscripts the
    iterator that [zip] returns, which raises [TypeError], so [get_class]
    raises [TypeError] for every module, whether it bundles one eligible
    class ([clock_module], where [getmembers] finds exactly [Clock]), two
    of them or none. *)
Theorem get_class_raises_TypeError :
  (∀ self module,
     get_class self module
     = Raise (TypeError "'zip' object is not subscriptable"))
  ∧ (let self := i3pystatus.finder (i3pystatus.__init__ false 1 [] []) in
     getmembers clock_module (predicate self)
     = [("Clock", ClassObj (Class "Clock" [IntervalModule_class]))]
     ∧ length (getmembers two_class_module (predicate self)) = 2%nat
     ∧ getmembers empty_module (predicate self) = []
     ∧ get_class self clock_module
       = Raise (TypeError "'zip' object is not subscriptable")
     ∧ get_class self two_class_module
       = Raise (TypeError "'zip' object is not subscriptable")
     ∧ get_class self empty_module
       = Raise (TypeError "'zip' object is not subscriptable")).
Proof.
  split; [reflexivity|]. split_and!; reflexivity.
Qed.

End ClassFinderProperties.

Section Registration.
Import i3pystatus.

(** C9, as the code has it. Registering a module instance together with
    extra positional or keyword constructor arguments raises
    [ValueError], with the message that additional arguments are invalid
    for an object, and leaves the store as it was: nothing is appended to
    the registry, no position is set and no thread is started. *)
Theorem register_instance_with_arguments self r position args kwargs w :
  args ≠ [] ∨ kwargs ≠ [] →
  register self (Instance r) position args kwargs w
  = (Raise (ValueError
       "Additional arguments are invalid if 'module' is already an object"),
     w).
Proof.
  intros Hextra. unfold register, bind, lift, _make_instance.
  destruct args as [|a args], kwargs as [|kv kwargs]; try reflexivity.
  by destruct Hextra.
Qed.

Lemma register_instance_with_arguments_witness :
  register (__init__ false 1 [] []) (Instance 0%nat) 0
    [JObj [("format", JStr "%H:%M")]] [] world_AB
  = (Raise (ValueError
       "Additional arguments are invalid if 'module' is already an object"),
     world_AB).
Proof.
  apply register_instance_with_arguments. left. discriminate.
Defined.

(** The error is not a [ConfigurationError]. *)
Lemma extra_arguments_do_not_raise_configuration_error :
  ¬ extra_arguments_raise_configuration_error
      (__init__ false 1 [] []) 0%nat 0
      [JObj [("format", JStr "%H:%M")]] [] world_AB.
Proof.
  intros (e & w' & Hreg & He).
  vm_compute in Hreg. injection Hreg as <- _. discriminate.
Qed.

Lemma registry_after_register self r position m w :
  heap w !! r = Some m →
  registry self
    (mk_world (modules w ++ [r])
       (alter (set_position position) r (heap w)) (threads w))
  = registry self
      (mk_world (modules w)
         (alter (set_position position) r (heap w)) (threads w))
    ++ [set_position position m].
Proof.
  intros Hm. unfold registry. cbn [modules heap].
  rewrite omap_app. f_equal. simpl.
  by rewrite lookup_alter_eq, Hm.
Qed.

(** C10. The registry is one list for all engine instances. A module
    instance registered through the engine [e1] is the last entry of the
    registry as any engine [e2] sees it, with the position it was
    registered at, and the tick loop of [e2] inserts its output. *)
Theorem registry_is_shared e1 e2 r position m w :
  heap w !! r = Some m →
  ∃ w',
    register e1 (Instance r) position [] [] w = (Ok tt, w')
    ∧ modules w' = modules w ++ [r]
    ∧ registry e2 w' = registry e1 w'
    ∧ last (registry e2 w') = Some (set_position position m)
    ∧ ∀ items, ∃ before merged,
        merge (registry e2 w') (JArr items) = Ok (JArr merged)
        ∧ merged = list_insert position (Module_.output m) before
        ∧ Module_.output m ∈ merged.
Proof.
  intros Hm. rewrite register_instance.
  set (w1 := mk_world (modules w ++ [r])
               (alter (set_position position) r (heap w)) (threads w)).
  destruct (registered_keeps r w1) as (ths & ->).
  eexists. split; [reflexivity|]. split_and!; try done.
  - change (last (registry e2 w1) = Some (set_position position m)).
    unfold w1. rewrite (registry_after_register _ _ _ m) by done.
    apply last_snoc.
  - intros items.
    change (registry e2 (mk_world (modules w1) (heap w1) ths))
      with (registry e2 w1).
    unfold w1. rewrite (registry_after_register _ _ _ m) by done.
    set (mods := registry e2 _).
    exists (insert_all (insertions mods) items).
    eexists. split; [apply merge_array|].
    unfold insertions. rewrite fmap_app, insert_all_app.
    split; [reflexivity|].
    apply list_elem_of_lookup. eexists.
    apply lookup_list_insert_new.
Qed.

(** The registry holds references: an instance registered twice is one
    object, so both entries carry the position of the last registration. *)
Lemma register_twice_is_one_object self :
  ∃ w1 w2,
    register self (Instance 0%nat) 0 [] [] world_AB = (Ok tt, w1)
    ∧ register self (Instance 0%nat) 1 [] [] w1 = (Ok tt, w2)
    ∧ Module_.position <$> registry self w2 = [1; 1].
Proof. eexists _, _. split_and!; vm_compute; reflexivity. Qed.

Lemma registry_is_shared_witness :
  ∃ w',
    register (__init__ false 1 [] []) (Instance 0%nat) 0 [] [] world_AB
    = (Ok tt, w')
    ∧ last (registry (__init__ true 5 [] []) w')
      = Some (module_with (JStr "A") 0).
Proof.
  destruct (registry_is_shared (__init__ false 1 [] [])
              (__init__ true 5 [] []) 0%nat 0
              (module_with (JStr "A") 0) world_AB eq_refl)
    as (w' & Hreg & _ & _ & Hlast & _).
  exists w'. split; [exact Hreg | exact Hlast].
Defined.

End Registration.

(* ===================================================================== *)
(** * Stripped lines *)
(* ===================================================================== *)

Section Append.
Implicit Types (s t u : string) (c : ascii).

Lemma str_app_nil_l s : EmptyString +:+ s = s.
Proof. reflexivity. Qed.

Lemma str_app_cons c s t : String c s +:+ t = String c (s +:+ t).
Proof. reflexivity. Qed.

Lemma str_app_nil_r s : s +:+ EmptyString = s.
Proof.
  induction s as [|c s IH]; [done|]. by rewrite str_app_cons, IH.
Qed.

Lemma str_app_assoc s t u : (s +:+ t) +:+ u = s +:+ (t +:+ u).
Proof.
  induction s as [|c s IH]; [done|]. by rewrite !str_app_cons, IH.
Qed.

Lemma str_app_length s t :
  String.length (s +:+ t) = (String.length s + String.length t)%nat.
Proof.
  induction s as [|c s IH]; [done|]. rewrite str_app_cons. simpl. by rewrite IH.
Qed.

End Append.

Create Rewrite HintDb str.
#[local] Hint Rewrite str_app_nil_l str_app_cons str_app_nil_r : str.

Section Strip.
Implicit Types (s t u : string) (c : ascii).

Lemma rev_app_spec s t : String.rev_app s t = String.rev s +:+ t.
Proof.
  revert t. induction s as [|c s IH]; intros t; [done|].
  unfold String.rev. simpl.
  rewrite (IH (String c t)), (IH (String c EmptyString)).
  rewrite str_app_assoc. by autorewrite with str.
Qed.

Lemma rev_cons c s :
  String.rev (String c s) = String.rev s +:+ String c EmptyString.
Proof. unfold String.rev at 1. simpl. by rewrite rev_app_spec. Qed.

Lemma rev_snoc s c :
  String.rev (s +:+ String c EmptyString) = String c (String.rev s).
Proof.
  induction s as [|d s IH]; [done|].
  autorewrite with str. rewrite !rev_cons, IH. by autorewrite with str.
Qed.

Lemma rev_involutive s : String.rev (String.rev s) = s.
Proof.
  induction s as [|c s IH]; [done|].
  by rewrite rev_cons, rev_snoc, IH.
Qed.

Lemma lstrip_idemp s : lstrip (lstrip s) = lstrip s.
Proof.
  induction s as [|c s IH]; [done|]. simpl.
  destruct (py_isspace c) eqn:Hc; [done|]. simpl. by rewrite Hc.
Qed.

Lemma lstrip_length s : (String.length (lstrip s) ≤ String.length s)%nat.
Proof.
  induction s as [|d s IH]; simpl; [lia|].
  destruct (py_isspace d); simpl; lia.
Qed.

(** Stripping on the left keeps a final character that is not
    whitespace. *)
Lemma lstrip_snoc s c :
  py_isspace c = false →
  ∃ t, lstrip (s +:+ String c EmptyString) = t +:+ String c EmptyString.
Proof.
  intros Hc. induction s as [|d s [t IH]]; autorewrite with str; simpl.
  - rewrite Hc. by exists EmptyString.
  - destruct (py_isspace d); [by exists t|].
    exists (String d s). by autorewrite with str.
Qed.

Lemma rstrip_idemp s : rstrip (rstrip s) = rstrip s.
Proof. unfold rstrip. by rewrite rev_involutive, lstrip_idemp. Qed.

Lemma lstrip_rstrip s : lstrip s = s → lstrip (rstrip s) = rstrip s.
Proof.
  destruct s as [|c s]; [done|]. simpl.
  destruct (py_isspace c) eqn:Hc.
  - intros Heq. exfalso.
    pose proof (lstrip_length s) as Hlen.
    rewrite Heq in Hlen. simpl in Hlen. lia.
  - intros _. unfold rstrip. rewrite rev_cons.
    destruct (lstrip_snoc (String.rev s) c Hc) as [t ->].
    rewrite rev_snoc. simpl. by rewrite Hc.
Qed.

Lemma lstrip_strip s : lstrip (strip s) = strip s.
Proof. unfold strip. apply lstrip_rstrip, lstrip_idemp. Qed.

Lemma rstrip_strip s : rstrip (strip s) = strip s.
Proof. unfold strip. apply rstrip_idemp. Qed.

Lemma strip_idemp s : strip (strip s) = strip s.
Proof.
  unfold strip at 1. by rewrite lstrip_strip, rstrip_strip.
Qed.

End Strip.

(* ===================================================================== *)
(** * What the line channel reads *)
(* ===================================================================== *)

Section Reading.
Import IOHandler.

(** X1. A line that [read_line] returns is never empty and has no
    whitespace at either end (stripping it again changes nothing); it is
    the stripped form of the one line taken from the stream, and nothing
    is written. *)
Theorem read_line_returns_stripped_line h line h' :
  read_line h = (Ok line, h') →
  line ≠ EmptyString
  ∧ strip line = line ∧ lstrip line = line ∧ rstrip line = line
  ∧ (∃ raw, inp h = Line raw :: inp h' ∧ line = strip raw)
  ∧ out h' = out h.
Proof.
  rewrite read_line_cases.
  destruct h as [[|[raw|] rest] o]; cbn [inp out]; try discriminate.
  destruct (str_is_empty (strip raw)) eqn:He; [discriminate|].
  intros [= <- <-]. cbn [inp out]. split_and!.
  - intros Hs. apply str_is_empty_spec in Hs. congruence.
  - apply strip_idemp.
  - apply lstrip_strip.
  - apply rstrip_strip.
  - by exists raw.
  - done.
Qed.

Lemma read_line_returns_stripped_line_witness :
  "x y" ≠ EmptyString
  ∧ strip "x y" = "x y" ∧ lstrip "x y" = "x y" ∧ rstrip "x y" = "x y"
  ∧ (∃ raw, [Line ("  x y " +:+ nl)] = Line raw :: [] ∧ "x y" = strip raw)
  ∧ @nil string = [].
Proof.
  refine (read_line_returns_stripped_line
            (mk [Line ("  x y " +:+ nl)] []) "x y" (mk [] []) _).
  reflexivity.
Defined.

Lemma read_next_line raw rest o :
  strip raw ≠ EmptyString →
  read_next (mk (Line raw :: rest) o) = (Ok (Some (strip raw)), mk rest o).
Proof.
  intros Hne. rewrite read_next_cases. cbn [inp out].
  destruct (str_is_empty (strip raw)) eqn:He; [|done].
  by apply str_is_empty_spec in He.
Qed.

Lemma read_next_end ev rest o :
  ends_stream ev → read_next (mk (ev :: rest) o) = (Ok None, mk rest o).
Proof.
  intros Hend. rewrite read_next_cases. cbn [inp out].
  destruct ev as [raw|]; [|done]. simpl in Hend. by rewrite Hend.
Qed.

(** X2. The iteration over [read()] yields the stripped lines up to the
    first event that ends the stream (an interrupt, or a line that is
    empty once stripped), consumes that event and leaves the events after
    it unread; when the stream runs out instead, it yields every line. In
    both cases it ends without an exception and writes nothing. *)
Theorem read_yields_lines_until_end raws ev rest o fuel :
  Forall (λ raw, strip raw ≠ EmptyString) raws →
  ends_stream ev → (length raws < fuel)%nat →
  read fuel (mk ((Line <$> raws) ++ ev :: rest) o)
  = (Ok (strip <$> raws, Exhausted), mk rest o)
  ∧ read fuel (mk (Line <$> raws) o)
    = (Ok (strip <$> raws, Exhausted), mk [] o).
Proof.
  intros Hraws Hend. revert fuel.
  induction Hraws as [|raw raws Hraw _ IH]; intros fuel Hfuel;
    (destruct fuel as [|fuel]; [simpl in Hfuel; lia|]); cbn [read fmap list_fmap app].
  - unfold bind. rewrite read_next_end by done. by rewrite read_next_cases.
  - destruct (IH fuel) as [IH1 IH2]; [simpl in Hfuel; lia|].
    unfold bind at 1 3. rewrite !read_next_line by done.
    unfold bind. by rewrite IH1, IH2.
Qed.

Lemma read_yields_lines_until_end_witness :
  read 3 (mk [Line (" a " +:+ nl); Line ("b" +:+ nl); Line nl;
              Line ("c" +:+ nl)] [])
  = (Ok (["a"; "b"], Exhausted), mk [Line ("c" +:+ nl)] []).
Proof.
  refine (proj1 (read_yields_lines_until_end
            [" a " +:+ nl; "b" +:+ nl] (Line nl) [Line ("c" +:+ nl)] [] 3
            _ _ _)).
  - repeat constructor; vm_compute; discriminate.
  - reflexivity.
  - simpl. lia.
Defined.

End Reading.

(* ===================================================================== *)
(** * The tick loop over a stream *)
(* ===================================================================== *)

Section TickLoop.
Import i3pystatus.
Implicit Types (body : json → result json) (h : IOHandler.t).

(** [parse_line] either writes the frame of the line or, when parsing or
    the body raises, leaves the channel as it is. *)
Lemma parse_line_frame `{LineChannel IO} line body (s : IO) :
  JSONIO.parse_line line body s
  = match tick_frame body line with
    | Ok frame => write_line frame s
    | Raise e => (Raise e, s)
    end.
Proof.
  unfold JSONIO.parse_line, tick_frame.
  destruct (startswith_comma line); unfold bind, lift;
    (destruct (loads _) as [j|e]; [|done]);
    cbn [result_bind]; by destruct (body j).
Qed.

Lemma handshake_ok raw1 raw2 rest o :
  strip raw1 ≠ EmptyString → strip raw2 ≠ EmptyString →
  JSONIO.__init__ (IOHandler.mk (Line raw1 :: Line raw2 :: rest) o)
  = (Ok tt, IOHandler.mk rest (o ++ [strip raw1 +:+ nl; strip raw2 +:+ nl])).
Proof.
  intros H1 H2. unfold JSONIO.__init__, bind.
  cbn [read_line write_line IOHandler_channel].
  rewrite handler_read_line_ok by done.
  unfold IOHandler.write_line at 1. cbn [IOHandler.inp IOHandler.out].
  rewrite handler_read_line_ok by done.
  unfold IOHandler.write_line. cbn [IOHandler.inp IOHandler.out].
  by rewrite <- app_assoc.
Qed.

(** On the engine's channel the tick loop is that of the handler behind
    it. *)
Lemma read_dispatch fuel body h :
  JSONIO.read fuel body (Handler h)
  = let (r, h') := JSONIO.read fuel body h in (r, Handler h').
Proof.
  revert h. induction fuel as [|fuel IH]; intros h; [done|].
  cbn [JSONIO.read]. unfold bind at 1 3.
  cbn [read_next io_channel IOHandler_channel]. unfold lift_handler.
  destruct (IOHandler.read_next h) as [[[line|]|e] h1]; try done.
  unfold bind. rewrite !parse_line_frame.
  destruct (tick_frame body line) as [frame|e'].
  - cbn [write_line io_channel IOHandler_channel]. unfold lift_handler.
    unfold IOHandler.write_line. apply IH.
  - done.
Qed.

Lemma run_handler self w fuel h h' :
  io self = Handler h → JSONIO.__init__ h = (Ok tt, h') →
  run self w fuel
  = let (r, h'') := JSONIO.read fuel (merge (registry self w)) h' in
    (r, Handler h'').
Proof.
  intros Hio Hinit. unfold run. rewrite Hio. unfold bind at 1.
  rewrite handshake_dispatch, Hinit. apply read_dispatch.
Qed.

Lemma read_frames body raws frames fuel tail o :
  frames_of body raws frames → (length raws ≤ fuel)%nat →
  JSONIO.read fuel body (IOHandler.mk ((Line <$> raws) ++ tail) o)
  = JSONIO.read (fuel - length raws) body
      (IOHandler.mk tail (o ++ framed frames)).
Proof.
  intros Hframes. revert fuel o.
  induction Hframes as [|raw frame raws frames [Hraw Hframe] _ IH];
    intros fuel o Hfuel.
  - unfold framed. simpl. rewrite app_nil_r. f_equal. lia.
  - destruct fuel as [|fuel]; [simpl in Hfuel; lia|].
    cbn [JSONIO.read fmap list_fmap app]. unfold bind at 1.
    cbn [read_next IOHandler_channel].
    rewrite read_next_line by done.
    unfold bind at 1. rewrite parse_line_frame, Hframe.
    cbn [write_line IOHandler_channel]. unfold IOHandler.write_line.
    cbn [IOHandler.inp IOHandler.out].
    rewrite IH by (simpl in Hfuel; lia).
    unfold framed. rewrite <- app_assoc. simpl. done.
Qed.

(** X3. Over a stream that ends, [run] echoes the two framing lines and
    then writes one frame for each tick line up to the event that ends the
    stream, in order, and returns normally; the events after that one are
    left unread. *)
Theorem run_writes_one_frame_per_line
    self w raw1 raw2 raws frames ev rest o fuel :
  io self
  = Handler (IOHandler.mk
               (Line raw1 :: Line raw2 :: (Line <$> raws) ++ ev :: rest) o) →
  strip raw1 ≠ EmptyString → strip raw2 ≠ EmptyString →
  frames_of (merge (registry self w)) raws frames →
  ends_stream ev → (length raws < fuel)%nat →
  run self w fuel
  = (Ok Exhausted,
     Handler (IOHandler.mk rest
                (o ++ framed (strip raw1 :: strip raw2 :: frames)))).
Proof.
  intros Hio H1 H2 Hframes Hend Hfuel.
  rewrite (run_handler _ _ _ _ _ Hio (handshake_ok _ _ _ _ H1 H2)).
  rewrite (read_frames _ _ frames) by (done || lia).
  destruct (fuel - length raws)%nat as [|fuel'] eqn:Hleft; [lia|].
  cbn [JSONIO.read]. unfold bind.
  cbn [read_next IOHandler_channel]. rewrite read_next_end by done.
  unfold framed. rewrite <- app_assoc. done.
Qed.

Lemma run_writes_one_frame_per_line_witness :
  run (__init__ false 1
         [Line (version_header +:+ nl); Line ("[" +:+ nl);
          Line ("[ 1 ]" +:+ nl); Line (",[]" +:+ nl); Interrupt;
          Line (",[]" +:+ nl)] [])
      (mk_world [] ∅ []) 3
  = (Ok Exhausted,
     Handler (IOHandler.mk [Line (",[]" +:+ nl)]
                (framed [version_header; "["; "[1]"; ",[]"]))).
Proof.
  refine (run_writes_one_frame_per_line
            (__init__ false 1 _ []) (mk_world [] ∅ [])
            (version_header +:+ nl) ("[" +:+ nl)
            ["[ 1 ]" +:+ nl; ",[]" +:+ nl] ["[1]"; ",[]"] Interrupt
            [Line (",[]" +:+ nl)] [] 3 eq_refl _ _ _ _ _).
  - vm_compute. discriminate.
  - vm_compute. discriminate.
  - repeat constructor; vm_compute; discriminate.
  - exact I.
  - simpl. lia.
Defined.

(** X4. A tick line on which the program raises (a [JSONDecodeError] of
    the parser, or the [AttributeError] of a merge into a value that is not
    a list) ends [run] with that exception: the frames of the ticks before
    it have been written, nothing is written for the line itself, and the
    lines after it are left unread. A line that merely lies outside the
    embedded fragment, such as one with a floating-point number, is not
    such a line. *)
Theorem run_stops_at_bad_line
    self w raw1 raw2 raws frames bad e rest o fuel :
  io self
  = Handler (IOHandler.mk
               (Line raw1 :: Line raw2 :: (Line <$> raws) ++ Line bad :: rest)
               o) →
  strip raw1 ≠ EmptyString → strip raw2 ≠ EmptyString →
  frames_of (merge (registry self w)) raws frames →
  strip bad ≠ EmptyString →
  tick_frame (merge (registry self w)) (strip bad) = Raise e →
  is_Unmodelled e = false →
  (length raws < fuel)%nat →
  run self w fuel
  = (Raise e,
     Handler (IOHandler.mk rest
                (o ++ framed (strip raw1 :: strip raw2 :: frames)))).
Proof.
  intros Hio H1 H2 Hframes Hbad He _ Hfuel.
  rewrite (run_handler _ _ _ _ _ Hio (handshake_ok _ _ _ _ H1 H2)).
  rewrite (read_frames _ _ frames) by (done || lia).
  destruct (fuel - length raws)%nat as [|fuel'] eqn:Hleft; [lia|].
  cbn [JSONIO.read]. unfold bind at 1.
  cbn [read_next IOHandler_channel]. rewrite read_next_line by done.
  unfold bind. rewrite parse_line_frame, He.
  unfold framed. rewrite <- app_assoc. done.
Qed.

Lemma run_stops_at_bad_line_witness :
  run (__init__ false 1
         [Line (version_header +:+ nl); Line ("[" +:+ nl);
          Line ("[]" +:+ nl); Line (",[1,]" +:+ nl); Line (",[]" +:+ nl)] [])
      (mk_world [] ∅ []) 5
  = (Raise (JSONDecodeError "Expecting value"),
     Handler (IOHandler.mk [Line (",[]" +:+ nl)]
                (framed [version_header; "["; "[]"]))).
Proof.
  refine (run_stops_at_bad_line
            (__init__ false 1 _ []) (mk_world [] ∅ [])
            (version_header +:+ nl) ("[" +:+ nl)
            ["[]" +:+ nl] ["[]"] (",[1,]" +:+ nl) _
            [Line (",[]" +:+ nl)] [] 5 eq_refl _ _ _ _ _ _ _).
  - vm_compute. discriminate.
  - vm_compute. discriminate.
  - repeat constructor; vm_compute; discriminate.
  - vm_compute. discriminate.
  - reflexivity.
  - reflexivity.
  - simpl. lia.
Defined.

Lemma read_ends fuel body h :
  (length (IOHandler.inp h) < fuel)%nat →
  (JSONIO.read fuel body h).1 ≠ Ok Running.
Proof.
  revert h. induction fuel as [|fuel IH]; intros h Hlen; [lia|].
  cbn [JSONIO.read]. unfold bind at 1.
  cbn [read_next IOHandler_channel]. rewrite read_next_cases.
  destruct h as [[|[raw|] rest] o]; cbn [IOHandler.inp IOHandler.out] in *;
    try done.
  destruct (str_is_empty (strip raw)); [done|].
  unfold bind. rewrite parse_line_frame.
  destruct (tick_frame body (strip raw)) as [frame|e]; [|done].
  cbn [write_line IOHandler_channel]. unfold IOHandler.write_line.
  cbn [IOHandler.inp IOHandler.out]. apply IH. simpl in *. lia.
Qed.

(** X5. On a finite stream [run] comes to an end: once the fuel exceeds
    the number of events left, the loop is never still running; it has
    returned or raised. *)
Theorem run_ends_on_finite_stream self w h fuel :
  io self = Handler h →
  (length (IOHandler.inp h) < fuel)%nat →
  (run self w fuel).1 ≠ Ok Running.
Proof.
  intros Hio Hlen. unfold run. rewrite Hio. unfold bind at 1.
  rewrite handshake_dispatch.
  destruct (JSONIO.__init__ h) as [[[]|e] h'] eqn:Hinit; [|done].
  rewrite read_dispatch.
  pose proof (read_ends fuel (merge (registry self w)) h') as Hends.
  destruct (JSONIO.read fuel _ h') as [r h'']. cbn [fst] in *.
  apply Hends.
  (* the handshake only consumes events *)
  revert Hinit. unfold JSONIO.__init__, bind.
  cbn [read_line write_line IOHandler_channel].
  rewrite read_line_cases.
  destruct h as [[|[raw1|] rest1] o]; cbn [IOHandler.inp IOHandler.out] in *;
    try discriminate.
  destruct (str_is_empty (strip raw1)); [discriminate|].
  unfold IOHandler.write_line at 1. cbn [IOHandler.inp IOHandler.out].
  rewrite read_line_cases. cbn [IOHandler.inp IOHandler.out].
  destruct rest1 as [|[raw2|] rest]; try discriminate.
  destruct (str_is_empty (strip raw2)); [discriminate|].
  unfold IOHandler.write_line. intros [= <-]. simpl in *. lia.
Qed.

Lemma run_ends_on_finite_stream_witness :
  (run (__init__ false 1 [Line (version_header +:+ nl)] [])
       (mk_world [] ∅ []) 2).1 ≠ Ok Running.
Proof.
  apply (run_ends_on_finite_stream _ _
           (IOHandler.mk [Line (version_header +:+ nl)] [])).
  - reflexivity.
  - simpl. lia.
Defined.

End TickLoop.

(* ===================================================================== *)
(** * The exceptions that leave the tick loop *)
(* ===================================================================== *)

Section Exceptions.
Import i3pystatus.
Implicit Types (body : json → result json) (h : IOHandler.t).

Lemma scanstring_error_aux (n : nat) :
  ∀ s acc e,
    (String.length s ≤ n)%nat →
    scanstring acc s = Raise e → decoder_stop e = true.
Proof.
  induction n as [|n IH]; intros s acc e Hn Hscan.
  - destruct s; simpl in *; [by injection Hscan as <-|lia].
  - destruct s as [|c s]; simpl in Hscan; [by injection Hscan as <-|].
    destruct (Ascii.eqb c "034"); [done|].
    destruct (Ascii.eqb c "\").
    + destruct s as [|d s1]; [by injection Hscan as <-|].
      destruct (Ascii.eqb d "u").
      * destruct s1 as [|a [|b [|c' [|d' r']]]];
          try by injection Hscan as <-.
        destruct (decode_uXXXX a b c' d') as [k|];
          [|by injection Hscan as <-].
        destruct (k <? 256); [|by injection Hscan as <-].
        eapply IH; [|exact Hscan]. simpl in *. lia.
      * destruct (unescape d); [|by injection Hscan as <-].
        eapply IH; [|exact Hscan]. simpl in *. lia.
    + destruct (nat_of_ascii c <? 32)%nat; [by injection Hscan as <-|].
      eapply IH; [|exact Hscan]. simpl in *. lia.
Qed.

Lemma scanstring_error s acc e :
  scanstring acc s = Raise e → decoder_stop e = true.
Proof. by apply (scanstring_error_aux (String.length s)). Qed.

Lemma scan_number_error s e :
  scan_number s = Raise e → decoder_stop e = true.
Proof.
  unfold scan_number.
  destruct (strip_prefix "-" s);
    (destruct (scan_int_part _) as [[n rest]|];
     [destruct (float_follows rest) | destruct (_ || _)]);
    by intros [= <-].
Qed.

Lemma scan_error f :
  (∀ s e, scan_once f s = Raise e → decoder_stop e = true)
  ∧ (∀ acc s e, array_items f acc s = Raise e → decoder_stop e = true)
  ∧ (∀ acc s e, object_items f acc s = Raise e → decoder_stop e = true).
Proof.
  induction f as [|f (IHv & IHa & IHo)];
    [split_and!; intros; simplify_eq/=; done|].
  split_and!.
  - intros s e Hscan. cbn [scan_once] in Hscan.
    destruct s as [|c s']; [by injection Hscan as <-|].
    destruct (Ascii.eqb c "034").
    { destruct (scanstring EmptyString s') as [[str rest]|e'] eqn:Hstr;
        [done|]. injection Hscan as <-. by eapply scanstring_error. }
    destruct (Ascii.eqb c "{").
    { destruct (skip_ws s') as [|c' rest]; [by injection Hscan as <-|].
      destruct (Ascii.eqb c' "}"); [done|]. by eapply IHo. }
    destruct (Ascii.eqb c "[").
    { destruct (skip_ws s') as [|c' rest]; [by injection Hscan as <-|].
      destruct (Ascii.eqb c' "]"); [done|]. by eapply IHa. }
    destruct (strip_prefix "null" _); [done|].
    destruct (strip_prefix "true" _); [done|].
    destruct (strip_prefix "false" _); [done|].
    by eapply scan_number_error.
  - intros acc s e Hscan. cbn [array_items] in Hscan.
    destruct (scan_once f s) as [[v1 r1]|e'] eqn:Hv;
      [|injection Hscan as <-; by eapply IHv].
    destruct (skip_ws r1) as [|c rest]; [by injection Hscan as <-|].
    destruct (Ascii.eqb c "]"); [done|].
    destruct (Ascii.eqb c ","); [|by injection Hscan as <-].
    by eapply IHa.
  - intros acc s e Hscan. cbn [object_items] in Hscan.
    destruct s as [|q s']; [by injection Hscan as <-|].
    destruct (negb (Ascii.eqb q "034")); [by injection Hscan as <-|].
    destruct (scanstring EmptyString s') as [[k r1]|e'] eqn:Hk;
      [|injection Hscan as <-; by eapply scanstring_error].
    destruct (skip_ws r1) as [|c r2]; [by injection Hscan as <-|].
    destruct (negb (Ascii.eqb c ":")); [by injection Hscan as <-|].
    destruct (scan_once f (skip_ws r2)) as [[v1 r3]|e'] eqn:Hv;
      [|injection Hscan as <-; by eapply IHv].
    destruct (skip_ws r3) as [|c' rest]; [by injection Hscan as <-|].
    destruct (Ascii.eqb c' "}"); [done|].
    destruct (Ascii.eqb c' ","); [|by injection Hscan as <-].
    by eapply IHo.
Qed.

Lemma loads_error s e : loads s = Raise e → decoder_stop e = true.
Proof.
  unfold loads.
  destruct (scan_once _ (skip_ws s)) as [[v rest]|e'] eqn:Hscan.
  - destruct (skip_ws rest); [done|]. by intros [= <-].
  - intros [= <-]. by eapply (proj1 (scan_error _)).
Qed.

Lemma merge_error mods j e :
  merge mods j = Raise e → is_AttributeError e = true.
Proof.
  revert j. induction mods as [|m mods IH]; intros j; [done|].
  cbn [merge]. destruct j; try (by intros [= <-]). apply IH.
Qed.

Lemma tick_frame_error mods line e :
  tick_frame (merge mods) line = Raise e →
  decoder_stop e = true ∨ is_AttributeError e = true.
Proof.
  unfold tick_frame.
  destruct (startswith_comma line);
    (destruct (loads _) as [j|e'] eqn:Hj; cbn [result_bind];
     [destruct (merge mods j) as [j'|e'] eqn:Hm; cbn [result_bind];
      [done | intros [= <-]; right; by eapply merge_error]
     | intros [= <-]; left; by eapply loads_error]).
Qed.

Lemma read_error fuel body h e :
  (JSONIO.read fuel body h).1 = Raise e →
  ∃ line, tick_frame body line = Raise e.
Proof.
  revert h. induction fuel as [|fuel IH]; intros h; [done|].
  cbn [JSONIO.read]. unfold bind at 1.
  cbn [read_next IOHandler_channel]. rewrite read_next_cases.
  destruct h as [[|[raw|] rest] o]; cbn [IOHandler.inp IOHandler.out];
    try done.
  destruct (str_is_empty (strip raw)); [done|].
  unfold bind. rewrite parse_line_frame.
  destruct (tick_frame body (strip raw)) as [frame|e'] eqn:Hframe.
  - cbn [write_line IOHandler_channel]. unfold IOHandler.write_line.
    apply IH.
  - intros [= <-]. eauto.
Qed.

Lemma handshake_error h e :
  (JSONIO.__init__ h).1 = Raise e → e = EOFError.
Proof.
  unfold JSONIO.__init__, bind.
  cbn [read_line write_line IOHandler_channel].
  rewrite read_line_cases.
  destruct h as [[|[raw1|] rest1] o]; cbn [IOHandler.inp IOHandler.out];
    try (by intros [= <-]).
  destruct (str_is_empty (strip raw1)); [by intros [= <-]|].
  unfold IOHandler.write_line at 1. cbn [IOHandler.inp IOHandler.out].
  rewrite read_line_cases. cbn [IOHandler.inp IOHandler.out].
  destruct rest1 as [|[raw2|] rest]; try (by intros [= <-]).
  destruct (str_is_empty (strip raw2)); [by intros [= <-]|done].
Qed.

(** The handshake, case by case. *)
Lemma handshake_cases h :
  JSONIO.__init__ h
  = match IOHandler.inp h with
    | Line raw1 :: rest1 =>
        if str_is_empty (strip raw1)
        then (Raise EOFError, IOHandler.mk rest1 (IOHandler.out h))
        else
          let o1 := IOHandler.out h ++ [strip raw1 +:+ nl] in
          match rest1 with
          | Line raw2 :: rest =>
              if str_is_empty (strip raw2)
              then (Raise EOFError, IOHandler.mk rest o1)
              else (Ok tt, IOHandler.mk rest (o1 ++ [strip raw2 +:+ nl]))
          | Interrupt :: rest => (Raise EOFError, IOHandler.mk rest o1)
          | [] => (Raise EOFError, IOHandler.mk [] o1)
          end
    | Interrupt :: rest1 =>
        (Raise EOFError, IOHandler.mk rest1 (IOHandler.out h))
    | [] => (Raise EOFError, IOHandler.mk [] (IOHandler.out h))
    end.
Proof.
  unfold JSONIO.__init__, bind.
  cbn [read_line write_line IOHandler_channel].
  rewrite read_line_cases.
  destruct h as [[|[raw1|] rest1] o]; cbn [IOHandler.inp IOHandler.out];
    try done.
  destruct (str_is_empty (strip raw1)); [done|].
  unfold IOHandler.write_line at 1. cbn [IOHandler.inp IOHandler.out].
  rewrite read_line_cases. cbn [IOHandler.inp IOHandler.out].
  destruct rest1 as [|[raw2|] rest]; try done.
  by destruct (str_is_empty (strip raw2)).
Qed.

(** X6. [EOFError] leaves [run] only from the handshake. When the stream
    ends, is interrupted or delivers an empty line before both framing
    lines have been read, [run] raises [EOFError], having written nothing
    or the first framing line only. Once the handshake has succeeded,
    [run] never raises [EOFError]: whatever ends the reading then ends the
    iteration, and no tick line makes the parser or the merge raise it. *)
Theorem run_raises_EOFError_only_in_handshake self w h fuel :
  io self = Handler h →
  ((run self w fuel).1 = Raise EOFError
   ↔ (JSONIO.__init__ h).1 = Raise EOFError)
  ∧ ((JSONIO.__init__ h).1 = Raise EOFError →
     ∃ h',
       run self w fuel = (Raise EOFError, Handler h')
       ∧ (IOHandler.out h' = IOHandler.out h
          ∨ ∃ raw, IOHandler.out h'
                   = IOHandler.out h ++ [strip raw +:+ nl])).
Proof.
  intros Hio.
  assert (Hrun : (JSONIO.__init__ h).1 = Raise EOFError →
                 run self w fuel
                 = (Raise EOFError, Handler (JSONIO.__init__ h).2)).
  { unfold run. rewrite Hio. unfold bind at 1. rewrite handshake_dispatch.
    destruct (JSONIO.__init__ h) as [[[]|e'] h']; cbn [fst snd]; [done|].
    by intros [= ->]. }
  split_and!.
  - split; [|by intros Hhs; rewrite (Hrun Hhs)].
    unfold run. rewrite Hio. unfold bind at 1. rewrite handshake_dispatch.
    destruct (JSONIO.__init__ h) as [[[]|e'] h'] eqn:Hinit; cbn [fst];
      [|by intros [= ->]].
    rewrite read_dispatch.
    pose proof (read_error fuel (merge (registry self w)) h' EOFError)
      as Hread.
    destruct (JSONIO.read fuel _ h') as [r h'']. cbn [fst] in *.
    intros Hr. destruct (Hread Hr) as [line Hline].
    by destruct (tick_frame_error _ _ _ Hline).
  - intros Hhs. exists (JSONIO.__init__ h).2. split; [by apply Hrun|].
    revert Hhs. rewrite handshake_cases.
    destruct h as [[|[raw1|] rest1] o]; cbn [IOHandler.inp IOHandler.out];
      try (intros _; by left).
    destruct (str_is_empty (strip raw1)); [intros _; by left|].
    destruct rest1 as [|[raw2|] rest];
      try (intros _; right; by exists raw1).
    destruct (str_is_empty (strip raw2)); [intros _; right; by exists raw1|].
    done.
Qed.

Lemma run_raises_EOFError_only_in_handshake_witness :
  ∃ h',
    run (__init__ false 1 [Line (version_header +:+ nl); Interrupt] [])
        (mk_world [] ∅ []) 3
    = (Raise EOFError, Handler h')
    ∧ (IOHandler.out h' = []
       ∨ ∃ raw, IOHandler.out h' = [] ++ [strip raw +:+ nl]).
Proof.
  refine (proj2 (run_raises_EOFError_only_in_handshake
            (__init__ false 1 [Line (version_header +:+ nl); Interrupt] [])
            (mk_world [] ∅ [])
            (IOHandler.mk [Line (version_header +:+ nl); Interrupt] [])
            3 eq_refl) _).
  vm_compute. reflexivity.
Defined.

End Exceptions.

(* ===================================================================== *)
(** * More on the merge loop *)
(* ===================================================================== *)

Section MergeMore.
Import i3pystatus.
Implicit Types (mods : list Module_.t) (items : list json).

Lemma sublist_list_insert {A} i (x : A) (l : list A) :
  l `sublist_of` list_insert i x l.
Proof.
  unfold list_insert.
  rewrite <- (take_drop (insert_index i (length l)) l) at 1.
  apply sublist_app; [done|]. by constructor.
Qed.

Lemma sublist_insert_all {A} (ins : list (Z * A)) (l : list A) :
  l `sublist_of` insert_all ins l.
Proof.
  revert l. induction ins as [|[p x] ins IH]; intros l; [done|].
  unfold insert_all in *. simpl.
  etrans; [apply (sublist_list_insert p x)|apply IH].
Qed.

(** X7. The merge only adds: the elements that the host sent all stay, in
    their order; the merged array consists of them and of one output per
    registered module, nothing else; its length is the sum of both. *)
Theorem merge_keeps_host_elements mods items :
  ∃ merged,
    merge mods (JArr items) = Ok (JArr merged)
    ∧ items `sublist_of` merged
    ∧ merged ≡ₚ items ++ (Module_.output <$> mods)
    ∧ length merged = (length items + length mods)%nat.
Proof.
  exists (insert_all (insertions mods) items). split_and!.
  - apply merge_array.
  - apply sublist_insert_all.
  - rewrite insert_all_perm. unfold insertions.
    by rewrite <- list_fmap_compose.
  - rewrite length_insert_all. unfold insertions. by rewrite length_fmap.
Qed.

Lemma list_insert_end {A} i (x : A) (l : list A) :
  Z.of_nat (length l) ≤ i → list_insert i x l = l ++ [x].
Proof.
  intros Hi. unfold list_insert, insert_index.
  destruct (Z.ltb_spec i 0); [lia|].
  rewrite Nat.min_r by lia. by rewrite take_ge, drop_ge by lia.
Qed.

Lemma list_insert_front {A} i (x : A) (l : list A) :
  i ≤ - Z.of_nat (length l) → list_insert i x l = x :: l.
Proof.
  intros Hi. unfold list_insert, insert_index.
  destruct (Z.ltb_spec i 0).
  - replace (Z.to_nat (i + Z.of_nat (length l))) with 0%nat by lia. done.
  - assert (length l = 0%nat) as Hl by lia.
    apply length_zero_iff_nil in Hl. subst l. simpl.
    by rewrite Nat.min_0_r.
Qed.

Lemma list_insert_negative {A} i (x : A) (l : list A) :
  - Z.of_nat (length l) ≤ i < 0 →
  list_insert i x l
  = take (Z.to_nat (Z.of_nat (length l) + i)) l
    ++ x :: drop (Z.to_nat (Z.of_nat (length l) + i)) l.
Proof.
  intros Hi. unfold list_insert, insert_index.
  destruct (Z.ltb_spec i 0); [|lia].
  by replace (i + Z.of_nat (length l)) with (Z.of_nat (length l) + i) by lia.
Qed.

(** X8. A position outside the array does not fail, as long as the
    positions fit a machine word (beyond it [list.insert] raises
    [OverflowError]): at its turn, a module whose position is at or beyond
    the end of the array has its output appended; one whose position is
    negative counts from the end, and is put first when it reaches before
    the start. *)
Theorem merge_clamps_position mods m items :
  Forall (λ m', fits_index (Module_.position m')) (mods ++ [m]) →
  ∃ before,
    merge mods (JArr items) = Ok (JArr before)
    ∧ (Z.of_nat (length before) ≤ Module_.position m →
       merge (mods ++ [m]) (JArr items)
       = Ok (JArr (before ++ [Module_.output m])))
    ∧ (Module_.position m ≤ - Z.of_nat (length before) →
       merge (mods ++ [m]) (JArr items)
       = Ok (JArr (Module_.output m :: before)))
    ∧ (- Z.of_nat (length before) ≤ Module_.position m < 0 →
       merge (mods ++ [m]) (JArr items)
       = Ok (JArr
           (take (Z.to_nat (Z.of_nat (length before) + Module_.position m))
                 before
            ++ Module_.output m
               :: drop (Z.to_nat (Z.of_nat (length before)
                                  + Module_.position m)) before))).
Proof.
  intros _. exists (insert_all (insertions mods) items).
  rewrite !merge_array. unfold insertions.
  rewrite fmap_app, insert_all_app. fold (insertions mods).
  set (before := insert_all (insertions mods) items).
  change (insert_all ((λ m0, (Module_.position m0, Module_.output m0)) <$> [m])
            before)
    with (list_insert (Module_.position m) (Module_.output m) before).
  split_and!; [done| | |]; intros Hp; do 2 f_equal.
  - by apply list_insert_end.
  - by apply list_insert_front.
  - by apply list_insert_negative.
Qed.

Lemma merge_clamps_position_witness :
  merge ([module_with (JStr "A") 0] ++ [module_with (JStr "B") 9])
        (JArr [JInt 7])
  = Ok (JArr [JStr "A"; JInt 7; JStr "B"]).
Proof.
  destruct (merge_clamps_position [module_with (JStr "A") 0]
              (module_with (JStr "B") 9) [JInt 7])
    as (before & Hbefore & Hend & _).
  { repeat constructor; simpl; lia. }
  injection Hbefore as <-. apply Hend. simpl. lia.
Defined.

(** X9. Two modules registered one right after the other, the first at
    the smaller position, keep that order: where the first position lies
    within the array at the moment of its insertion, the output of the
    first ends up to the left of the output of the second. *)
Theorem consecutive_modules_keep_order mods items (k : nat) m1 m2 :
  mods !! k = Some m1 → mods !! S k = Some m2 →
  0 ≤ Module_.position m1 < Module_.position m2 →
  Module_.position m1 ≤ Z.of_nat (length items + k) →
  ∃ merged (i1 i2 : nat),
    merge mods (JArr items) = Ok (JArr merged)
    ∧ output_at mods items k i1 ∧ merged !! i1 = Some (Module_.output m1)
    ∧ output_at mods items (S k) i2
    ∧ merged !! i2 = Some (Module_.output m2)
    ∧ (i1 < i2)%nat.
Proof.
  intros H1 H2 Hpos Hrange.
  destruct (registry_split _ _ _ _ _ H1 H2 (Nat.lt_succ_diag_r k))
    as (l1 & l2 & l3 & Hmods & Hl1 & Hl2).
  assert (l2 = []) as -> by (apply length_zero_iff_nil; lia).
  simpl in Hmods.
  set (t1 := (FromModule k, Module_.output m1)).
  set (t2 := (FromModule (S k), Module_.output m2)).
  set (p1 := Module_.position m1) in *.
  set (p2 := Module_.position m2) in *.
  set (s1 := insert_all (tagged_insertions 0 l1) (tagged_items items)).
  set (s2 := list_insert p1 t1 s1).
  set (s3 := list_insert p2 t2 s2).
  assert (Hall : merge_tagged mods items
                 = insert_all (tagged_insertions (S (S k)) l3) s3).
  { unfold merge_tagged. rewrite Hmods.
    rewrite tagged_insertions_app, insert_all_app. fold s1.
    rewrite !tagged_insertions_cons.
    change (0 + length l1)%nat with (length l1). rewrite Hl1.
    reflexivity. }
  assert (Hlen1 : length s1 = (length items + k)%nat).
  { unfold s1. rewrite length_insert_all, length_tagged_insertions.
    unfold tagged_items. rewrite length_imap. lia. }
  assert (Hlen2 : length s2 = S (length items + k)).
  { unfold s2. by rewrite length_list_insert, Hlen1. }
  assert (Hidx1 : insert_index p1 (length s1) = Z.to_nat p1).
  { apply insert_index_in_range. lia. }
  assert (Hs2 : s2 !! Z.to_nat p1 = Some t1).
  { unfold s2. rewrite <- Hidx1. apply lookup_list_insert_new. }
  assert (Hidx2 : (Z.to_nat p1 < insert_index p2 (length s2))%nat).
  { unfold insert_index. destruct (Z.ltb_spec p2 0); lia. }
  assert (H3old : s3 !! Z.to_nat p1 = Some t1).
  { unfold s3. by rewrite lookup_list_insert_before. }
  assert (H3new : s3 !! insert_index p2 (length s2) = Some t2).
  { unfold s3. apply lookup_list_insert_new. }
  destruct (insert_all_keeps_order (tagged_insertions (S (S k)) l3) s3
              _ _ t1 t2 H3old H3new Hidx2)
    as (i1 & i2 & Hi1 & Hi2 & Hi & _).
  rewrite <- Hall in Hi1, Hi2.
  exists (insert_all (insertions mods) items), i1, i2.
  split_and!; try done.
  - apply merge_array.
  - by exists (Module_.output m1).
  - by rewrite <- merge_tagged_values, list_lookup_fmap, Hi1.
  - by exists (Module_.output m2).
  - by rewrite <- merge_tagged_values, list_lookup_fmap, Hi2.
Qed.

Lemma consecutive_modules_keep_order_witness :
  ∃ merged (i1 i2 : nat),
    merge [module_with (JStr "A") 0; module_with (JStr "B") 1]
          (JArr [JInt 10; JInt 20]) = Ok (JArr merged)
    ∧ merged !! i1 = Some (JStr "A")
    ∧ merged !! i2 = Some (JStr "B")
    ∧ (i1 < i2)%nat.
Proof.
  destruct (consecutive_modules_keep_order
              [module_with (JStr "A") 0; module_with (JStr "B") 1]
              [JInt 10; JInt 20] 0
              (module_with (JStr "A") 0) (module_with (JStr "B") 1))
    as (merged & i1 & i2 & Hm & _ & H1 & _ & H2 & Hlt);
    [reflexivity | reflexivity | simpl; lia | simpl; lia |].
  exists merged, i1, i2. auto.
Defined.

End MergeMore.

(* ===================================================================== *)
(** * More on the module constructor *)
(* ===================================================================== *)

Section ModuleConstructor.
Import Module_.
Implicit Types (kwargs : list (string * json)) (names : list string).

Lemma set_options_ok_known kwargs self required r :
  set_options kwargs self required = Ok r →
  Forall (λ key, key ∈ self_settings self) kwargs.*1.
Proof.
  revert self required.
  induction kwargs as [|[key value] kwargs IH]; intros self required;
    [by constructor|].
  cbn [set_options]. case_bool_decide; [|done].
  intros Hok. constructor; [done|]. by apply (IH _ _ Hok).
Qed.

Lemma dict_set_fresh {V} (k : string) (v : V) (d : list (string * V)) :
  k ∉ d.*1 → dict_set k v d = d ++ [(k, v)].
Proof.
  induction d as [|[k' v'] d IH]; [done|]. simpl. intros Hk.
  apply not_elem_of_cons in Hk as [Hne Hk].
  rewrite bool_decide_false by done. by rewrite IH.
Qed.

Lemma set_options_stores kwargs self required self' required' :
  set_options kwargs self required = Ok (self', required') →
  NoDup ((options self).*1 ++ kwargs.*1) →
  options self' = options self ++ kwargs
  ∧ output self' = output self ∧ position self' = position self.
Proof.
  revert self required.
  induction kwargs as [|[key value] kwargs IH]; intros self required.
  - intros [= <- _] _. by rewrite app_nil_r.
  - cbn [set_options]. case_bool_decide; [|done].
    intros Hok Hnodup.
    destruct (IH _ _ Hok) as (Hopt & Hout & Hpos).
    + cbn [setattr options]. simpl in Hnodup.
      apply NoDup_app in Hnodup as (Hd1 & Hdisj & Hd2).
      rewrite dict_set_fresh by (intros Hin; apply (Hdisj _ Hin); left).
      rewrite fmap_app. simpl. rewrite <- app_assoc. simpl.
      apply NoDup_app. split_and!; [done| |done].
      intros x Hx. apply Hdisj. done.
    + split_and!; [|done|done].
      rewrite Hopt. cbn [setattr options]. simpl in Hnodup.
      apply NoDup_app in Hnodup as (_ & Hdisj & _).
      rewrite dict_set_fresh by (intros Hin; apply (Hdisj _ Hin); left).
      by rewrite <- app_assoc.
Qed.

(** X10. For a class whose declared settings are ordinary names (none is
    an attribute that the constructor or the engine reads, such as
    [output], [position], [settings] or [required]), the constructor
    succeeds exactly when every key of the settings mapping is a declared
    setting and every required key is among them. The instance it then
    returns is of the class, with the class defaults for output and
    position. *)
Theorem module_init_succeeds_iff c kwargs :
  ordinary_settings c →
  ((∃ self, __init__ c [] kwargs = Ok self) ↔
     Forall (λ key, key ∈ setting_names (settings c)) kwargs.*1
     ∧ (list_to_set (required c) : gset string) ⊆ list_to_set kwargs.*1)
  ∧ (∀ self, __init__ c [] kwargs = Ok self →
       type self = cls c ∧ output self = JNull ∧ position self = 0).
Proof.
  intros _. unfold __init__.
  replace ((length [] =? 1)%nat && _) with false by done.
  cbn [result_bind].
  set (self0 := mk (cls c) JNull 0 (setting_names (settings c))
                  (list_to_set (required c)) []).
  split; [split|].
  - intros [self Hok].
    destruct (set_options kwargs self0 ∅) as [[self1 req]|e] eqn:Hset;
      [|done].
    pose proof (set_options_ok_known _ _ _ _ Hset) as Hknown.
    split; [exact Hknown|].
    destruct (set_options_known kwargs self0 ∅ Hknown)
      as (self2 & Hset2 & _ & _ & Hr).
    rewrite Hset2 in Hset. injection Hset as -> <-.
    cbn [result_bind] in Hok. rewrite Hr in Hok. cbn [self_required] in Hok.
    case_bool_decide as Hsize; [done|].
    unfold self0 in Hsize. cbn [self_required] in Hsize.
    assert (Heq : (list_to_set kwargs.*1 ∪ ∅) ∩ list_to_set (required c)
                  = (list_to_set (required c) : gset string)).
    { apply set_subseteq_size_eq; [set_solver|]. by rewrite Hsize. }
    clear -Heq. set_solver.
  - intros [Hknown Hreq].
    destruct (set_options_known kwargs self0 ∅ Hknown)
      as (self2 & -> & _ & _ & Hr).
    cbn [result_bind]. rewrite Hr. cbn [self_required].
    rewrite bool_decide_false; [by eexists|].
    intros Hsize. apply Hsize. f_equal. clear -Hreq. set_solver.
  - intros self.
    destruct (set_options kwargs self0 ∅) as [[self1 req]|e] eqn:Hset;
      [|done].
    pose proof (set_options_ok_known _ _ _ _ Hset) as Hknown.
    destruct (set_options_known kwargs self0 ∅ Hknown)
      as (self2 & Hset2 & Ht & _ & _).
    assert (Hkeep : ∀ kw s r s' r',
              set_options kw s r = Ok (s', r') →
              output s' = output s ∧ position s' = position s).
    { clear. induction kw as [|[k v] kw IH]; intros s r s' r'.
      - by intros [= <- _].
      - cbn [set_options]. case_bool_decide; [|done].
        intros Hok. by destruct (IH _ _ _ _ Hok). }
    destruct (Hkeep _ _ _ _ _ Hset) as [Hout Hpos].
    rewrite Hset2 in Hset. injection Hset as -> <-.
    cbn [result_bind]. case_bool_decide; [done|].
    intros [= <-]. by rewrite Ht, Hout, Hpos.
Qed.

Lemma module_init_succeeds_iff_witness :
  ∃ self, __init__ clock_class [] [("format", JStr "%H:%M")] = Ok self.
Proof.
  refine (proj2 (proj1 (module_init_succeeds_iff clock_class
                          [("format", JStr "%H:%M")] _)) _).
  - repeat constructor; (apply (bool_decide_unpack _); vm_compute; exact I).
  - split.
    + repeat constructor.
    + cbn. set_solver.
Defined.

(** X11. What the constructor stores is what it was given: for a class
    whose declared settings are ordinary names, when the constructor
    succeeds on a mapping (whose keys are distinct, as those of a dict
    are), the instance holds each setting with the value passed for it, in
    the order given, and no other setting. *)
Theorem module_init_stores_settings c kwargs self :
  ordinary_settings c →
  __init__ c [] kwargs = Ok self →
  NoDup kwargs.*1 →
  options self = kwargs.
Proof.
  intros _. unfold __init__.
  replace ((length [] =? 1)%nat && _) with false by done.
  cbn [result_bind].
  destruct (set_options kwargs _ ∅) as [[self1 req]|e] eqn:Hset; [|done].
  cbn [result_bind]. case_bool_decide; [done|].
  intros [= <-] Hnodup.
  by destruct (set_options_stores _ _ _ _ _ Hset) as (-> & _).
Qed.

Lemma module_init_stores_settings_witness :
  ∃ self, __init__ clock_class [] [("format", JStr "%H:%M")] = Ok self
          ∧ options self = [("format", JStr "%H:%M")].
Proof.
  eexists. split; [reflexivity|].
  apply (module_init_stores_settings clock_class).
  - repeat constructor; (apply (bool_decide_unpack _); vm_compute; exact I).
  - reflexivity.
  - repeat constructor; set_solver.
Defined.

End ModuleConstructor.

Section ConstructorArguments.
Import Module_.

(** X12. How the constructor takes its settings. Keyword arguments are
    the settings. A single positional argument, given without keyword
    arguments, stands for them: a mapping is used as the settings, anything
    else raises [AttributeError]. In every other case the positional
    arguments are ignored without an error. *)
Theorem module_init_arguments c :
  (∀ mapping, __init__ c [JObj mapping] [] = __init__ c [] mapping)
  ∧ (∀ value, (∀ mapping, value ≠ JObj mapping) →
       __init__ c [value] []
       = Raise (AttributeError "object has no attribute 'items'"))
  ∧ (∀ args kwargs, length args ≠ 1%nat ∨ kwargs ≠ [] →
       __init__ c args kwargs = __init__ c [] kwargs).
Proof.
  split_and!.
  - done.
  - intros value Hvalue. unfold __init__. cbn [length Nat.eqb andb].
    destruct value; try done. by destruct (Hvalue pairs).
  - intros args kwargs Hor. unfold __init__.
    destruct args as [|a [|b args]], kwargs as [|kv kwargs];
      try done; by destruct Hor.
Qed.

Lemma module_init_arguments_witness :
  __init__ clock_class [JStr "%H:%M"; JInt 3] []
  = __init__ clock_class [] [].
Proof.
  apply (proj2 (proj2 (module_init_arguments clock_class))).
  left. simpl. lia.
Defined.

(** X13. The configuration errors of the constructor read as follows:
    for the first key that is not a declared setting, [Module 'C': invalid
    option 'key']; for a mapping of declared keys that omits required ones,
    [Module 'C': missing required options: ] followed by the set of the
    missing keys. *)
Theorem module_init_error_messages c format_set format_classes :
  (∀ known key value rest,
     Forall (λ k, k ∈ setting_names (settings c)) known.*1 →
     key ∉ setting_names (settings c) →
     ∃ e, __init__ c [] (known ++ (key, value) :: rest) = Raise e
          ∧ message_of format_set format_classes e
            = Some ("Module '" +:+ cls_name (cls c)
                    +:+ "': invalid option '" +:+ key +:+ "'"))
  ∧ (∀ kwargs,
       Forall (λ k, k ∈ setting_names (settings c)) kwargs.*1 →
       missing_keys c kwargs ≠ ∅ →
       ∃ e, __init__ c [] kwargs = Raise e
            ∧ message_of format_set format_classes e
              = Some ("Module '" +:+ cls_name (cls c)
                      +:+ "': missing required options: "
                      +:+ format_set (missing_keys c kwargs))).
Proof.
  split.
  - intros known key value rest Hknown Hkey.
    eexists. split.
    + unfold __init__.
      replace ((length [] =? 1)%nat && _) with false by done.
      cbn [result_bind]. by rewrite set_options_unknown.
    + cbn [message_of type]. unfold ConfigurationError_message.
      by rewrite !str_app_assoc.
  - intros kwargs Hknown Hmissing.
    unfold __init__.
    replace ((length [] =? 1)%nat && _) with false by done.
    cbn [result_bind].
    edestruct (set_options_known kwargs) as (self' & -> & Ht & Hs & Hr);
      [exact Hknown|].
    cbn [result_bind]. rewrite Hr, Ht. cbn [self_required type].
    unfold missing_keys in *.
    set (req := list_to_set (required c) : gset string) in *.
    set (given := list_to_set kwargs.*1 : gset string) in *.
    assert (Hm : req ∖ ((given ∪ ∅) ∩ req) = req ∖ given)
      by (clear; set_solver).
    rewrite bool_decide_true.
    + eexists. split; [reflexivity|].
      cbn [message_of]. unfold ConfigurationError_message.
      rewrite Hm. by rewrite !str_app_assoc.
    + intros Hsize. apply Hmissing.
      assert (Heq : (given ∪ ∅) ∩ req = req).
      { apply set_subseteq_size_eq; [clear; set_solver|]. by rewrite Hsize. }
      clear -Heq. set_solver.
Qed.

Lemma module_init_error_messages_witness :
  ∃ e, __init__ clock_class [] [("colour", JStr "red")] = Raise e
       ∧ message_of (λ _, EmptyString) (λ _, EmptyString) e
         = Some "Module 'Clock': invalid option 'colour'".
Proof.
  apply (proj1 (module_init_error_messages clock_class
                  (λ _, EmptyString) (λ _, EmptyString))
           [] "colour" (JStr "red") []).
  - constructor.
  - cbn. intros Hin. apply list_elem_of_singleton in Hin. discriminate.
Defined.

End ConstructorArguments.

Section Eligibility.
Import ClassFinder.

Lemma pyclass_eqb_name c d : pyclass_eqb c d = true → cls_name c = cls_name d.
Proof.
  destruct c as [n bs], d as [m ds]. cbn [pyclass_eqb cls_name].
  intros Heq. apply andb_true_iff in Heq as [Hn _].
  by apply bool_decide_eq_true in Hn.
Qed.

Lemma pyclass_eqb_other_name c d :
  cls_name c ≠ cls_name d → pyclass_eqb c d = false.
Proof.
  intros Hne. destruct (pyclass_eqb c d) eqn:Heq; [|done].
  by apply pyclass_eqb_name in Heq.
Qed.

(** X14. Which members the engine's finder takes for module classes: never
    a member that is not a class, and never one of the three bases
    [Module], [AsyncModule], [IntervalModule]; always a class under another
    name that has a subclass of [Module] among its bases; and only
    subclasses of [Module]. *)
Theorem predicate_eligibility (self : t) :
  self = i3pystatus.finder (i3pystatus.__init__ false 1 [] []) →
  predicate self OtherObj = false
  ∧ predicate self (ClassObj Module_class) = false
  ∧ predicate self (ClassObj AsyncModule_class) = false
  ∧ predicate self (ClassObj IntervalModule_class) = false
  ∧ (∀ name bases base,
       base ∈ bases → issubclass base Module_class = true →
       name ∉ ["Module"; "AsyncModule"; "IntervalModule"] →
       predicate self (ClassObj (Class name bases)) = true)
  ∧ (∀ c, predicate self (ClassObj c) = true →
          issubclass c Module_class = true).
Proof.
  intros ->. split_and!; try reflexivity.
  - intros name bases base Hbase Hsub Hname.
    cbn [predicate i3pystatus.finder i3pystatus.__init__ baseclass exclude].
    apply andb_true_iff. split.
    + cbn [issubclass]. apply orb_true_iff. right.
      apply existsb_exists. exists base. split; [|done].
      by apply list_elem_of_In.
    + apply negb_true_iff. cbn [existsb].
      rewrite !pyclass_eqb_other_name; [done|..];
        cbn [cls_name Module_class AsyncModule_class IntervalModule_class];
        intros ->; apply Hname; set_solver.
  - intros c Hc. cbn [predicate] in Hc.
    by apply andb_true_iff in Hc as [Hc _].
Qed.

Lemma predicate_eligibility_witness :
  predicate (i3pystatus.finder (i3pystatus.__init__ false 1 [] []))
    (ClassObj (Class "Clock" [IntervalModule_class])) = true.
Proof.
  refine (proj1 (proj2 (proj2 (proj2 (proj2
            (predicate_eligibility _ eq_refl)))))
            "Clock" [IntervalModule_class] IntervalModule_class _ _ _).
  - set_solver.
  - reflexivity.
  - intros Hin. repeat (apply elem_of_cons in Hin as [Hin|Hin];
                        [discriminate|]).
    by apply elem_of_nil in Hin.
Defined.

End Eligibility.

Section RegisterMore.
Import i3pystatus.

(** X15. Registering a module instance without further arguments always
    succeeds and changes the store in three places only: the instance is
    appended to the registry; its position is set, while its output and
    every other instance stay as they are; and a daemon thread is started
    for it exactly when its class derives from [AsyncModule]. *)
Theorem register_changes_only_the_instance self r position m w :
  heap w !! r = Some m →
  ∃ w',
    register self (Instance r) position [] [] w = (Ok tt, w')
    ∧ modules w' = modules w ++ [r]
    ∧ heap w' = <[r := set_position position m]> (heap w)
    ∧ (∀ r', r' ≠ r → heap w' !! r' = heap w !! r')
    ∧ Module_.output <$> heap w' !! r = Some (Module_.output m)
    ∧ threads w'
      = if issubclass (Module_.type m) AsyncModule_class
        then threads w ++ [r] else threads w.
Proof.
  intros Hm. rewrite register_instance. unfold registered.
  cbn [heap modules threads].
  assert (Halter : alter (set_position position) r (heap w)
                   = <[r := set_position position m]> (heap w)).
  { apply map_eq. intros r'. destruct (decide (r = r')) as [<-|Hne].
    - by rewrite lookup_alter_eq, lookup_insert_eq, Hm.
    - by rewrite lookup_alter_ne, lookup_insert_ne. }
  rewrite Halter, lookup_insert_eq.
  cbn [set_position Module_.type].
  destruct (issubclass (Module_.type m) AsyncModule_class);
    eexists; (split; [reflexivity|]); cbn [heap modules threads];
    (split_and!; try done;
     [intros r' Hne; by rewrite lookup_insert_ne
     |by rewrite lookup_insert_eq]).
Qed.

Lemma register_changes_only_the_instance_witness :
  ∃ w',
    register (__init__ false 1 [] []) (Instance 1%nat) 4 [] [] world_AB
    = (Ok tt, w')
    ∧ heap w' !! 0%nat = Some (module_with (JStr "A") 0)
    ∧ threads w' = [].
Proof.
  destruct (register_changes_only_the_instance (__init__ false 1 [] [])
              1%nat 4 (module_with (JStr "B") 0) world_AB eq_refl)
    as (w' & Hreg & _ & _ & Hframe & _ & Hth).
  exists w'. split_and!; [exact Hreg| |exact Hth].
  rewrite Hframe by lia. reflexivity.
Defined.

(** Registering by a Python module never succeeds: whatever the
    module contains and whatever arguments are passed, the class method
    [_make_instance] refers to the unbound name [self], the call raises
    [NameError], and the store is left as it was. *)
Lemma register_python_module_raises self m position args kwargs w :
  register self (PyModule m) position args kwargs w
  = (Raise (NameError "name 'self' is not defined"), w).
Proof. reflexivity. Qed.

End RegisterMore.

(* ===================================================================== *)
(** * A standalone run *)
(* ===================================================================== *)

Section StandaloneRun.
Import i3pystatus.
Implicit Types (body : json → result json) (s : StandaloneIO.t)
  (mods : list Module_.t).

Lemma handshake_dispatch_standalone s :
  JSONIO.__init__ (Standalone s)
  = let (r, s') := JSONIO.__init__ s in (r, Standalone s').
Proof.
  unfold JSONIO.__init__, bind.
  cbn [read_line write_line io_channel StandaloneIO_channel].
  unfold lift_standalone.
  destruct (StandaloneIO.read_line s) as [[line1|e1] s1]; [|done].
  unfold StandaloneIO.write_line at 1 3. unfold IOHandler.write_line.
  destruct (StandaloneIO.read_line _) as [[line2|e2] s2]; done.
Qed.

Lemma read_dispatch_standalone fuel body s :
  JSONIO.read fuel body (Standalone s)
  = let (r, s') := JSONIO.read fuel body s in (r, Standalone s').
Proof.
  revert s. induction fuel as [|fuel IH]; intros s; [done|].
  cbn [JSONIO.read]. unfold bind at 1 3.
  cbn [read_next io_channel StandaloneIO_channel]. unfold lift_standalone.
  destruct (StandaloneIO.read_next s) as [[[line|]|e] s1]; try done.
  unfold bind. rewrite !parse_line_frame.
  destruct (tick_frame body line) as [frame|e'].
  - cbn [write_line io_channel StandaloneIO_channel].
    unfold lift_standalone, StandaloneIO.write_line, IOHandler.write_line.
    apply IH.
  - done.
Qed.






Lemma run_standalone self w fuel seconds stdin signals :
  io self = Standalone (StandaloneIO.__init__ seconds stdin signals) →
  run self w fuel
  = let (r, s') :=
      JSONIO.read fuel (merge (registry self w))
        (StandaloneIO.mk
           (IOHandler.mk stdin [version_header +:+ nl; "[" +:+ nl])
           1 seconds signals) in
    (r, Standalone s').
Proof.
  intros Hio. unfold run. rewrite Hio. unfold bind at 1.
  rewrite handshake_dispatch_standalone, standalone_handshake.
  apply read_dispatch_standalone.
Qed.





(** A negative interval ends a standalone run at the first sleep, with the
    [ValueError] of [time.sleep]: the two framing lines have been written
    and no tick. *)
Lemma standalone_negative_interval self w seconds stdin signals fuel :
  io self = Standalone (StandaloneIO.__init__ seconds stdin signals) →
  seconds < 0 →
  run self w (S fuel)
  = (Raise (ValueError "sleep length must be non-negative"),
     Standalone
       (StandaloneIO.mk
          (IOHandler.mk stdin (framed [version_header; "["]))
          1 seconds signals)).
Proof.
  intros Hio Hsec. rewrite (run_standalone _ _ _ _ _ _ Hio).
  cbn [JSONIO.read]. unfold bind at 1.
  cbn [read_next StandaloneIO_channel].
  unfold StandaloneIO.read_next, bind, try_except, StandaloneIO.sleep, ret.
  cbn [StandaloneIO.sleeps StandaloneIO.interval].
  by rewrite (proj2 (Z.ltb_lt _ _) Hsec).
Qed.

End StandaloneRun.

(* ===================================================================== *)
(** * What the engine writes can be read back *)
(* ===================================================================== *)

Section Integers.
Implicit Types (rest : string) (p acc : positive) (d : Decimal.uint).

Lemma scan_digits_stop (a : Z) rest :
  match rest with String c _ => is_digit c = false | EmptyString => True end →
  scan_digits a rest = (a, rest).
Proof. destruct rest as [|c r]; [done|]. simpl. by intros ->. Qed.

Lemma scan_digits_uint d acc rest :
  match rest with String c _ => is_digit c = false | EmptyString => True end →
  scan_digits (Z.pos acc)
    (DecimalString.NilEmpty.string_of_uint d +:+ rest)
  = (Z.pos (Pos.of_uint_acc d acc), rest).
Proof.
  intros Hrest. revert acc.
  induction d as [|d IH|d IH|d IH|d IH|d IH|d IH|d IH|d IH|d IH|d IH];
    intros acc; cbn [DecimalString.NilEmpty.string_of_uint Pos.of_uint_acc];
    [by apply scan_digits_stop|..];
    rewrite str_app_cons; cbn [scan_digits];
    change (is_digit _) with true; cbn match;
    rewrite <- IH; f_equal; unfold digit_val;
    match goal with
    | |- context [Z.of_nat (nat_of_ascii ?c)] =>
        let v := eval vm_compute in (Z.of_nat (nat_of_ascii c)) in
        change (Z.of_nat (nat_of_ascii c)) with v
    end; lia.
Qed.

Lemma to_uint_head p :
  match Pos.to_uint p with
  | Decimal.Nil | Decimal.D0 _ => False
  | _ => True
  end.
Proof.
  pose proof (DecimalPos.Unsigned.to_uint_nonnil p) as Hnil.
  pose proof (DecimalPos.Unsigned.to_uint_nonzero p) as Hzero.
  pose proof (DecimalPos.Unsigned.to_of (Pos.to_uint p)) as Hnorm.
  rewrite DecimalPos.Unsigned.of_to in Hnorm. cbn [N.to_uint] in Hnorm.
  destruct (Pos.to_uint p) as [|l| | | | | | | | |]; try done.
  rewrite DecimalFacts.unorm_D0 in Hnorm.
  assert (Hl : l ≠ Decimal.Nil) by (intros ->; by apply Hzero).
  pose proof (DecimalFacts.nb_digits_unorm l Hl) as Hlen.
  rewrite <- Hnorm in Hlen. simpl in Hlen. lia.
Qed.

Lemma delimited_no_digit rest :
  delimited rest →
  match rest with String c _ => is_digit c = false | EmptyString => True end.
Proof. destruct rest as [|c r]; [done|]. by intros [->|[->| ->]]. Qed.

Lemma float_follows_delimited rest :
  delimited rest → float_follows rest = false.
Proof.
  destruct rest as [|c0 [|c1 r]]; try done. by intros [->|[->| ->]].
Qed.

Lemma scan_int_part_pos p rest :
  delimited rest →
  scan_int_part
    (DecimalString.NilEmpty.string_of_uint (Pos.to_uint p) +:+ rest)
  = Some (Z.pos p, rest)
  ∧ strip_prefix "-"
      (DecimalString.NilEmpty.string_of_uint (Pos.to_uint p) +:+ rest)
    = None.
Proof.
  intros Hrest. apply delimited_no_digit in Hrest.
  pose proof (DecimalPos.Unsigned.of_to p) as Hof.
  pose proof (to_uint_head p) as Hhead.
  destruct (Pos.to_uint p) as [|l|l|l|l|l|l|l|l|l|l]; try done;
    cbn [DecimalString.NilEmpty.string_of_uint];
    rewrite str_app_cons; (split; [|reflexivity]);
    unfold scan_int_part;
    change (Ascii.eqb _ "0") with false; cbn match;
    change (is_digit _) with true; cbn match;
    cbn [scan_digits]; change (is_digit _) with true; cbn match;
    cbn [Pos.of_uint] in Hof; injection Hof as <-;
    match goal with
    | |- context [scan_digits ?a _] =>
        let v := eval vm_compute in a in change a with v
    end;
    by rewrite scan_digits_uint.
Qed.

Lemma str_of_int_pos p :
  str_of_int (Z.pos p)
  = DecimalString.NilEmpty.string_of_uint (Pos.to_uint p)
  ∧ str_of_int (Z.neg p)
    = String "-" (DecimalString.NilEmpty.string_of_uint (Pos.to_uint p)).
Proof.
  unfold str_of_int. cbn [Z.to_int DecimalString.NilZero.string_of_int].
  unfold DecimalString.NilZero.string_of_uint.
  pose proof (to_uint_head p) as Hhead.
  by destruct (Pos.to_uint p).
Qed.

(** An integer as [json.dumps] prints it reads back as that integer. *)
Lemma scan_number_int z rest :
  delimited rest → scan_number (str_of_int z +:+ rest) = Ok (JInt z, rest).
Proof.
  intros Hrest. pose proof (float_follows_delimited _ Hrest) as Hfloat.
  destruct z as [|p|p].
  - change (str_of_int 0) with "0". rewrite str_app_cons, str_app_nil_l.
    unfold scan_number. cbn [strip_prefix].
    change (Ascii.eqb "-" "0") with false. cbn match.
    unfold scan_int_part. change (Ascii.eqb "0" "0") with true. cbn match.
    by rewrite Hfloat.
  - rewrite (proj1 (str_of_int_pos p)).
    destruct (scan_int_part_pos p rest Hrest) as [Hint Hneg].
    unfold scan_number. by rewrite Hneg, Hint, Hfloat.
  - rewrite (proj2 (str_of_int_pos p)), str_app_cons.
    destruct (scan_int_part_pos p rest Hrest) as [Hint _].
    unfold scan_number. cbn [strip_prefix].
    change (Ascii.eqb "-" "-") with true. cbn match.
    by rewrite Hint, Hfloat.
Qed.

(** The first character of a printed integer: a digit or the sign. *)
Lemma str_of_int_head z :
  ∃ c r, str_of_int z = String c r ∧ (is_digit c = true ∨ c = "-"%char).
Proof.
  destruct z as [|p|p].
  - exists "0"%char, EmptyString. split; [reflexivity|by left].
  - rewrite (proj1 (str_of_int_pos p)).
    pose proof (to_uint_head p) as Hhead.
    destruct (Pos.to_uint p); try done; eexists _, _;
      (split; [reflexivity|left; reflexivity]).
  - rewrite (proj2 (str_of_int_pos p)). eexists _, _.
    split; [reflexivity|by right].
Qed.

End Integers.

Section Strings.
Implicit Types (s acc tail : string) (c : ascii).

(** Each character, as [json.dumps] escapes it, reads back as itself. *)
Lemma scanstring_escape_char c acc tail :
  scanstring acc (escape_char c +:+ tail) = scanstring (String c acc) tail.
Proof.
  destruct c as [[] [] [] [] [] [] [] []];
    match goal with
    | |- context [escape_char ?c] =>
        let v := eval vm_compute in (escape_char c) in
        change (escape_char c) with v
    end;
    rewrite ?str_app_cons, ?str_app_nil_l; reflexivity.
Qed.

Lemma scanstring_escape_chars s acc tail :
  scanstring acc (escape_chars s +:+ String "034" tail)
  = Ok (String.rev (String.rev_app s acc), tail).
Proof.
  revert acc. induction s as [|c s IH]; intros acc; [done|].
  cbn [escape_chars String.rev_app].
  by rewrite str_app_assoc, scanstring_escape_char, IH.
Qed.

(** A string as [json.dumps] prints it reads back as that string. *)
Lemma scanstring_encoded s tail :
  scanstring EmptyString (escape_chars s +:+ dq +:+ tail) = Ok (s, tail).
Proof.
  change (dq +:+ tail) with (String "034" tail).
  rewrite scanstring_escape_chars.
  change (String.rev_app s EmptyString) with (String.rev s).
  by rewrite rev_involutive.
Qed.

End Strings.

Section RoundTrip.
Implicit Types (j v : json) (items : list json) (pairs : list (string * json))
  (s rest : string) (f : nat).

(** Induction on a value with the hypothesis for every element of an array
    and every value of a dict. *)
Lemma json_nested_ind (P : json → Prop) :
  P JNull → (∀ b, P (JBool b)) → (∀ z, P (JInt z)) → (∀ s, P (JStr s)) →
  (∀ items, Forall P items → P (JArr items)) →
  (∀ pairs, Forall (λ kv, P kv.2) pairs → P (JObj pairs)) →
  ∀ j, P j.
Proof.
  intros Hnull Hbool Hint Hstr Harr Hobj. fix IH 1.
  intros [|b|z|s|items|pairs]; [done..| |].
  - apply Harr. induction items as [|x items IHitems]; constructor; auto.
  - apply Hobj. induction pairs as [|[k x] pairs IHpairs]; constructor; auto.
Qed.

(** More fuel does not change a result that did not lack fuel. *)
Lemma scan_more_fuel f :
  ∀ f', (f ≤ f')%nat →
    (∀ s, scan_once f s ≠ Raise out_of_fuel → scan_once f' s = scan_once f s)
    ∧ (∀ acc s, array_items f acc s ≠ Raise out_of_fuel →
                array_items f' acc s = array_items f acc s)
    ∧ (∀ acc s, object_items f acc s ≠ Raise out_of_fuel →
                object_items f' acc s = object_items f acc s).
Proof.
  induction f as [|f IH]; intros f' Hf; [by split_and!|].
  destruct f' as [|f']; [lia|].
  destruct (IH f' ltac:(lia)) as (IHv & IHa & IHo).
  split_and!.
  - intros s. cbn [scan_once].
    destruct s as [|c s']; [done|].
    destruct (Ascii.eqb c "034"); [done|].
    destruct (Ascii.eqb c "{").
    { destruct (skip_ws s') as [|c' rest]; [done|].
      destruct (Ascii.eqb c' "}"); [done|]. apply IHo. }
    destruct (Ascii.eqb c "[").
    { destruct (skip_ws s') as [|c' rest]; [done|].
      destruct (Ascii.eqb c' "]"); [done|]. apply IHa. }
    done.
  - intros acc s. cbn [array_items].
    pose proof (IHv s) as Hv.
    destruct (scan_once f s) as [[v1 r1]|e].
    + rewrite Hv by done.
      destruct (skip_ws r1) as [|c rest]; [done|].
      destruct (Ascii.eqb c "]"); [done|].
      destruct (Ascii.eqb c ","); [|done]. apply IHa.
    + intros He. rewrite Hv; [done|]. intros [= ->]. by apply He.
  - intros acc s. cbn [object_items].
    destruct s as [|q s']; [done|].
    destruct (negb (Ascii.eqb q "034")); [done|].
    destruct (scanstring EmptyString s') as [[k r1]|e]; [|done].
    destruct (skip_ws r1) as [|c r2]; [done|].
    destruct (negb (Ascii.eqb c ":")); [done|].
    pose proof (IHv (skip_ws r2)) as Hv.
    destruct (scan_once f (skip_ws r2)) as [[v1 r3]|e].
    + rewrite Hv by done.
      destruct (skip_ws r3) as [|c' rest]; [done|].
      destruct (Ascii.eqb c' "}"); [done|].
      destruct (Ascii.eqb c' ","); [|done]. apply IHo.
    + intros He. rewrite Hv; [done|]. intros [= ->]. by apply He.
Qed.

(** The first character of a printed value is not whitespace and closes
    neither an array nor a dict. *)
Lemma dumps_head j :
  ∃ c r, dumps j = String c r ∧ json_ws c = false
         ∧ Ascii.eqb c "]" = false ∧ c ≠ ","%char.
Proof.
  destruct j as [|[]|z|s|items|pairs]; cbn [dumps];
    try (eexists _, _; split; [reflexivity|done]).
  destruct (str_of_int_head z) as (c & r & -> & Hc). exists c, r.
  split; [done|]. destruct Hc as [Hc| ->]; [|done].
  destruct c as [[] [] [] [] [] [] [] []]; done.
Qed.

Lemma skip_ws_dumps j rest : skip_ws (dumps j +:+ rest) = dumps j +:+ rest.
Proof.
  destruct (dumps_head j) as (c & r & -> & Hc & _).
  rewrite str_app_cons. cbn [skip_ws]. by rewrite Hc.
Qed.

End RoundTrip.

Section RoundTrip2.
Implicit Types (j v x : json) (items : list json)
  (pairs : list (string * json)) (s rest : string) (f : nat).

Lemma skip_ws_space s : skip_ws (String " " s) = skip_ws s.
Proof. reflexivity. Qed.

Lemma skip_ws_head c s : json_ws c = false → skip_ws (String c s) = String c s.
Proof. cbn [skip_ws]. by intros ->. Qed.

Lemma join_cons sep (p q : string) (ps : list string) :
  join sep (p :: q :: ps) = p +:+ sep +:+ join sep (q :: ps).
Proof. reflexivity. Qed.

Lemma join_dumps_head x items :
  ∃ c r, join ", " (map dumps (x :: items)) = String c r ∧ json_ws c = false
         ∧ Ascii.eqb c "]" = false.
Proof.
  destruct (dumps_head x) as (c & r & Hx & Hws & Hc & _).
  destruct items as [|y ys]; cbn [map].
  - exists c, r. by rewrite <- Hx.
  - rewrite join_cons, Hx, str_app_cons. by eexists _, _.
Qed.

Lemma dumps_entry_head kv tail :
  ∃ r, dumps_entry kv +:+ tail = String "034" r.
Proof.
  unfold dumps_entry, encode_basestring_ascii, dq.
  rewrite !str_app_cons. by eexists.
Qed.

Lemma array_items_dumps items :
  Forall reads_back items → items ≠ [] →
  ∃ f0 : nat, ∀ f acc rest, (f0 ≤ f)%nat →
    array_items f acc (join ", " (map dumps items) +:+ String "]" rest)
    = Ok (JArr (acc ++ items), rest).
Proof.
  induction 1 as [|x xs [fx Hx] Hxs IH]; [done|]. intros _.
  destruct xs as [|y ys].
  - exists (S fx). intros f acc rest Hf. destruct f as [|f]; [lia|].
    cbn [map join array_items].
    rewrite Hx; [done|lia|by right; left].
  - destruct IH as [fxs IH]; [done|].
    exists (S (fx `max` fxs)). intros f acc rest Hf.
    destruct f as [|f]; [lia|].
    destruct (join_dumps_head y ys) as (c & r & Hhead & Hws & _).
    cbn [map] in *. rewrite join_cons. cbn [array_items].
    rewrite !str_app_assoc, Hx; [|lia|by left].
    rewrite !str_app_cons, str_app_nil_l, skip_ws_head by done.
    change (Ascii.eqb "," "]") with false.
    change (Ascii.eqb "," ",") with true. cbn match.
    rewrite skip_ws_space, Hhead, str_app_cons, skip_ws_head by done.
    rewrite <- str_app_cons, <- Hhead, IH by lia.
    by rewrite <- app_assoc.
Qed.


Lemma object_items_entry f acc k v tail :
  scan_once f (dumps v +:+ tail) = Ok (v, tail) →
  object_items (S f) acc (dumps_entry (k, v) +:+ tail)
  = match skip_ws tail with
    | EmptyString => Raise expecting_comma
    | String c rest =>
        if Ascii.eqb c "}" then Ok (JObj (dict_set k v acc), rest)
        else if Ascii.eqb c "," then
          object_items f (dict_set k v acc) (skip_ws rest)
        else Raise expecting_comma
    end.
Proof.
  intros Hv. unfold dumps_entry, encode_basestring_ascii. cbn [fst snd].
  rewrite !str_app_assoc. unfold dq at 1.
  rewrite !str_app_cons, !str_app_nil_l. cbn [object_items].
  change (Ascii.eqb "034" "034") with true. cbn [negb].
  rewrite scanstring_encoded, skip_ws_head by done.
  change (Ascii.eqb ":" ":") with true. cbn [negb].
  by rewrite skip_ws_space, skip_ws_dumps, Hv.
Qed.

Lemma object_items_dumps pairs :
  Forall (λ kv, reads_back kv.2) pairs → pairs ≠ [] →
  ∃ f0 : nat, ∀ f acc rest, (f0 ≤ f)%nat →
    NoDup (acc.*1 ++ pairs.*1) →
    object_items f acc (join ", " (map dumps_entry pairs) +:+ String "}" rest)
    = Ok (JObj (acc ++ pairs), rest).
Proof.
  induction 1 as [|[k x] xs [fx Hx] Hxs IH]; [done|]. intros _.
  cbn [snd] in Hx. destruct xs as [|y ys].
  - exists (S fx). intros f acc rest Hf Hkeys. destruct f as [|f]; [lia|].
    cbn [map join].
    rewrite object_items_entry by (apply Hx; [lia|by right; right]).
    rewrite skip_ws_head by done.
    change (Ascii.eqb "}" "}") with true. cbn match.
    rewrite dict_set_fresh; [done|].
    apply NoDup_app in Hkeys as (_ & Hfresh & _).
    intros Hk. apply (Hfresh _ Hk). cbn. left.
  - destruct IH as [fxs IH]; [done|].
    exists (S (fx `max` fxs)). intros f acc rest Hf Hkeys.
    destruct f as [|f]; [lia|].
    cbn [map] in *. rewrite join_cons, !str_app_assoc.
    rewrite object_items_entry by (apply Hx; [lia|by left]).
    rewrite !str_app_cons, str_app_nil_l, skip_ws_head by done.
    change (Ascii.eqb "," "}") with false.
    change (Ascii.eqb "," ",") with true. cbn match.
    rewrite skip_ws_space.
    assert (Hfresh : k ∉ acc.*1).
    { apply NoDup_app in Hkeys as (_ & Hfresh & _).
      intros Hk. apply (Hfresh _ Hk). cbn. left. }
    rewrite dict_set_fresh by done.
    assert (Hskip : ∀ tail,
      skip_ws (join ", " (dumps_entry y :: map dumps_entry ys) +:+ tail)
      = join ", " (dumps_entry y :: map dumps_entry ys) +:+ tail).
    { intros tail. destruct ys as [|z zs]; cbn [map].
      - cbn [join]. destruct (dumps_entry_head y tail) as [r' ->].
        by apply skip_ws_head.
      - rewrite join_cons, str_app_assoc.
        destruct (dumps_entry_head y
                    (", " +:+ join ", " (dumps_entry z :: map dumps_entry zs)
                     +:+ tail)) as [r' Hr'].
        rewrite !str_app_assoc, Hr'.
        by apply skip_ws_head. }
    rewrite Hskip, IH; [by rewrite <- app_assoc|lia|].
    rewrite fmap_app, <- app_assoc. by cbn in *.
Qed.

End RoundTrip2.

Section RoundTrip3.
Implicit Types (j v x : json) (items : list json)
  (pairs : list (string * json)) (s rest line : string) (f : nat)
  (mods : list Module_.t).

Lemma wf_JArr items : wf_json (JArr items) ↔ Forall wf_json items.
Proof.
  cbn [wf_json]. induction items as [|x items IH]; cbn [foldr].
  - by split.
  - rewrite Forall_cons. by rewrite IH.
Qed.

Lemma wf_JObj pairs :
  wf_json (JObj pairs)
  ↔ NoDup pairs.*1 ∧ Forall (λ kv, wf_json kv.2) pairs.
Proof.
  cbn [wf_json]. apply and_iff_compat_l.
  induction pairs as [|kv pairs IH]; cbn [foldr].
  - by split.
  - rewrite Forall_cons. by rewrite IH.
Qed.

Lemma scan_once_number f c r :
  is_digit c = true ∨ c = "-"%char →
  scan_once (S f) (String c r) = scan_number (String c r).
Proof.
  intros [Hc| ->]; [|done].
  destruct c as [[] [] [] [] [] [] [] []]; done.
Qed.

(** Every value that [json.dumps] prints is read back by the decoder. *)
Lemma dumps_reads_back j : wf_json j → reads_back j.
Proof.
  induction j as [|b|z|s|items IH|pairs IH] using json_nested_ind; intros Hwf.
  - exists 1%nat. intros [|f] rest Hf _; [lia|]. done.
  - exists 1%nat. intros [|f] rest Hf _; [lia|]. by destruct b.
  - exists 1%nat. intros [|f] rest Hf Hrest; [lia|].
    pose proof (scan_number_int z rest Hrest) as Hnum.
    destruct (str_of_int_head z) as (c & r & Hz & Hc).
    cbn [dumps]. rewrite Hz, str_app_cons in *.
    by rewrite scan_once_number.
  - exists 1%nat. intros [|f] rest Hf _; [lia|].
    cbn [dumps]. unfold encode_basestring_ascii.
    rewrite !str_app_assoc. unfold dq at 1.
    rewrite str_app_cons, str_app_nil_l. cbn [scan_once].
    change (Ascii.eqb "034" "034") with true. cbn match.
    by rewrite scanstring_encoded.
  - apply wf_JArr in Hwf.
    assert (Hitems : Forall reads_back items).
    { apply Forall_forall. intros x Hx.
      by apply (proj1 (Forall_forall _ _) IH x Hx),
               (proj1 (Forall_forall _ _) Hwf x Hx). }
    destruct items as [|x xs].
    { exists 1%nat. intros [|f] rest Hf _; [lia|]. done. }
    destruct (array_items_dumps (x :: xs) Hitems) as [f0 Hf0]; [done|].
    exists (S f0). intros [|f] rest Hf _; [lia|].
    destruct (join_dumps_head x xs) as (c & r & Hhead & Hws & Hc).
    cbn [dumps]. rewrite !str_app_assoc, !str_app_cons, !str_app_nil_l.
    cbn [scan_once].
    change (Ascii.eqb "[" "034") with false.
    change (Ascii.eqb "[" "{") with false.
    change (Ascii.eqb "[" "[") with true. cbn match.
    rewrite Hhead, str_app_cons, skip_ws_head, Hc by done.
    rewrite <- str_app_cons, <- Hhead. by apply Hf0; lia.
  - apply wf_JObj in Hwf as [Hkeys Hwf].
    assert (Hpairs : Forall (λ kv, reads_back kv.2) pairs).
    { apply Forall_forall. intros kv Hkv.
      by apply (proj1 (Forall_forall _ _) IH kv Hkv),
               (proj1 (Forall_forall _ _) Hwf kv Hkv). }
    destruct pairs as [|kv kvs].
    { exists 1%nat. intros [|f] rest Hf _; [lia|]. done. }
    destruct (object_items_dumps (kv :: kvs) Hpairs) as [f0 Hf0]; [done|].
    exists (S f0). intros [|f] rest Hf _; [lia|].
    cbn [dumps]. fold dumps_entry.
    change (map (λ kv0, dumps_entry kv0)) with (map dumps_entry).
    rewrite !str_app_assoc, !str_app_cons, !str_app_nil_l.
    cbn [scan_once].
    change (Ascii.eqb "{" "034") with false.
    change (Ascii.eqb "{" "{") with true. cbn match.
    assert (Hhead : ∃ r, join ", " (map dumps_entry (kv :: kvs))
                         +:+ String "}" rest = String "034" r).
    { destruct kvs as [|kv' kvs]; cbn [map].
      - apply dumps_entry_head.
      - rewrite join_cons, !str_app_assoc. apply dumps_entry_head. }
    destruct Hhead as [r Hhead]. rewrite Hhead, skip_ws_head by done.
    change (Ascii.eqb "034" "}") with false. cbn match.
    rewrite <- Hhead. by apply Hf0; [lia|].
Qed.

Lemma loads_dumps_ok j : wf_json j → loads (dumps j) = Ok j.
Proof.
  intros Hwf. destruct (dumps_reads_back j Hwf) as [f0 Hf0].
  pose proof (skip_ws_dumps j EmptyString) as Hws.
  rewrite str_app_nil_r in Hws. unfold loads. rewrite Hws.
  set (f := (2 * String.length (dumps j) + 2)%nat).
  pose proof (proj1 (scan_fuel f) (dumps j) ltac:(lia)) as Hfuel.
  pose proof (proj1 (scan_more_fuel f (f `max` f0) ltac:(lia)) _ Hfuel)
    as Hmore.
  rewrite <- Hmore. rewrite <- (str_app_nil_r (dumps j)) at 1.
  by rewrite Hf0 by (done || lia).
Qed.

End RoundTrip3.

Section WellFormed.
Import i3pystatus.
Implicit Types (j v x : json) (items : list json)
  (pairs acc : list (string * json)) (s rest line frame : string) (f : nat)
  (mods : list Module_.t).

Lemma dict_set_keys k v acc (key : string) :
  key ∈ (dict_set k v acc).*1 ↔ key = k ∨ key ∈ acc.*1.
Proof.
  induction acc as [|[k' v'] acc IH]; cbn [dict_set].
  - set_solver.
  - case_bool_decide as Hk; [subst k'; set_solver|].
    cbn [fmap list_fmap fst] in *. rewrite !elem_of_cons, IH. tauto.
Qed.

Lemma dict_set_NoDup k v acc : NoDup acc.*1 → NoDup (dict_set k v acc).*1.
Proof.
  induction acc as [|[k' v'] acc IH]; cbn [dict_set].
  - intros _. apply NoDup_singleton.
  - case_bool_decide as Hk; [by subst k'|].
    cbn [fmap list_fmap fst]. rewrite !NoDup_cons. intros [Hfresh Hnd].
    split; [|by apply IH]. rewrite dict_set_keys.
    intros [->|Hin]; done.
Qed.

Lemma dict_set_Forall (P : string * json → Prop) k v acc :
  P (k, v) → Forall P acc → Forall P (dict_set k v acc).
Proof.
  intros Hkv. induction 1 as [|[k' v'] acc Hx Hacc IH]; cbn [dict_set].
  - by constructor.
  - case_bool_decide; by constructor.
Qed.

Lemma scan_number_wf s v rest : scan_number s = Ok (v, rest) → wf_json v.
Proof.
  unfold scan_number.
  destruct (strip_prefix "-" s);
    (destruct (scan_int_part _) as [[n r]|];
     [destruct (float_follows r); [done|by intros [= <- _]]
     |by destruct (_ || _)]).
Qed.

(** The decoder builds no dict with a repeated key. *)
Lemma scan_wf f :
  (∀ s v rest, scan_once f s = Ok (v, rest) → wf_json v)
  ∧ (∀ items s v rest,
       Forall wf_json items → array_items f items s = Ok (v, rest) →
       wf_json v)
  ∧ (∀ acc s v rest,
       NoDup acc.*1 → Forall (λ kv, wf_json kv.2) acc →
       object_items f acc s = Ok (v, rest) → wf_json v).
Proof.
  induction f as [|f (IHv & IHa & IHo)]; [by split_and!|].
  split_and!.
  - intros s v rest. cbn [scan_once].
    destruct s as [|c s']; [done|].
    destruct (Ascii.eqb c "034").
    { destruct (scanstring EmptyString s') as [[str r]|]; [|done].
      by intros [= <- _]. }
    destruct (Ascii.eqb c "{").
    { destruct (skip_ws s') as [|c' r]; [done|].
      destruct (Ascii.eqb c' "}").
      - intros [= <- _]. apply wf_JObj. split; [constructor|done].
      - apply IHo; [constructor|done]. }
    destruct (Ascii.eqb c "[").
    { destruct (skip_ws s') as [|c' r]; [done|].
      destruct (Ascii.eqb c' "]").
      - by intros [= <- _].
      - by apply IHa. }
    destruct (strip_prefix "null" _); [by intros [= <- _]|].
    destruct (strip_prefix "true" _); [by intros [= <- _]|].
    destruct (strip_prefix "false" _); [by intros [= <- _]|].
    apply scan_number_wf.
  - intros items s v rest Hitems. cbn [array_items].
    destruct (scan_once f s) as [[v1 r1]|] eqn:Hv; [|done].
    apply IHv in Hv.
    assert (Hall : Forall wf_json (items ++ [v1])).
    { apply Forall_app. split; [done|by constructor]. }
    destruct (skip_ws r1) as [|c r]; [done|].
    destruct (Ascii.eqb c "]"); [intros [= <- _]; by apply wf_JArr|].
    destruct (Ascii.eqb c ","); [|done]. by apply IHa.
  - intros acc s v rest Hkeys Hacc. cbn [object_items].
    destruct s as [|q s']; [done|].
    destruct (negb (Ascii.eqb q "034")); [done|].
    destruct (scanstring EmptyString s') as [[k r1]|]; [|done].
    destruct (skip_ws r1) as [|c r2]; [done|].
    destruct (negb (Ascii.eqb c ":")); [done|].
    destruct (scan_once f (skip_ws r2)) as [[v1 r3]|] eqn:Hv; [|done].
    apply IHv in Hv.
    pose proof (dict_set_NoDup k v1 acc Hkeys) as Hkeys'.
    pose proof (dict_set_Forall (λ kv, wf_json kv.2) k v1 acc Hv Hacc)
      as Hacc'.
    destruct (skip_ws r3) as [|c' r]; [done|].
    destruct (Ascii.eqb c' "}"); [intros [= <- _]; by apply wf_JObj|].
    destruct (Ascii.eqb c' ","); [|done]. by apply IHo.
Qed.

Lemma loads_wf s j : loads s = Ok j → wf_json j.
Proof.
  unfold loads.
  destruct (scan_once _ (skip_ws s)) as [[v rest]|] eqn:Hv; [|done].
  apply (proj1 (scan_wf _)) in Hv.
  destruct (skip_ws rest); [|done]. by intros [= <-].
Qed.

Lemma merge_wf mods j j' :
  Forall (λ m, wf_json (Module_.output m)) mods →
  wf_json j → merge mods j = Ok j' → wf_json j'.
Proof.
  intros Hmods. revert j.
  induction Hmods as [|m mods Hm Hmods IH]; intros j Hj; cbn [merge].
  - by intros [= <-].
  - destruct j as [| | | |items|]; try done.
    apply IH, wf_JArr. apply wf_JArr in Hj.
    rewrite list_insert_perm. by constructor.
Qed.

Lemma startswith_comma_head c s :
  c ≠ ","%char → startswith_comma (String c s) = false.
Proof. destruct c as [[] [] [] [] [] [] [] []]; done. Qed.

Lemma tick_frame_dumps mods line frame :
  Forall (λ m, wf_json (Module_.output m)) mods →
  tick_frame (merge mods) line = Ok frame →
  ∃ j, wf_json j ∧ frame = comma_prefix line +:+ dumps j.
Proof.
  intros Hmods. unfold tick_frame, comma_prefix.
  destruct (startswith_comma line);
    (destruct (loads _) as [j0|] eqn:Hj0; [|done]; cbn [result_bind];
     destruct (merge mods j0) as [j|] eqn:Hj; [|done]; cbn [result_bind];
     intros [= <-]; exists j; split; [|done];
     apply loads_wf in Hj0; by apply (merge_wf mods j0)).
Qed.

Lemma tick_frame_fixed_point line j :
  wf_json j →
  tick_frame (merge []) (comma_prefix line +:+ dumps j)
  = Ok (comma_prefix line +:+ dumps j).
Proof.
  intros Hj. unfold tick_frame, comma_prefix.
  destruct (startswith_comma line).
  - rewrite str_app_cons, str_app_nil_l. cbn [startswith_comma str_tail].
    by rewrite loads_dumps_ok.
  - rewrite str_app_nil_l.
    destruct (dumps_head j) as (c & r & Hhead & _ & _ & Hc).
    rewrite Hhead, startswith_comma_head by done.
    by rewrite <- Hhead, loads_dumps_ok.
Qed.

End WellFormed.

Section WrittenTicks.
Import i3pystatus.
Implicit Types (j : json) (items : list json) (line frame : string)
  (mods : list Module_.t) (inp : list in_event) (out : list string).

Lemma frame_parts line j :
  comma_prefix (comma_prefix line +:+ dumps j) = comma_prefix line
  ∧ payload (comma_prefix line +:+ dumps j) = dumps j.
Proof.
  destruct (dumps_head j) as (c & r & Hhead & _ & _ & Hc).
  unfold comma_prefix, payload. destruct (startswith_comma line).
  - by rewrite str_app_cons, str_app_nil_l.
  - by rewrite str_app_nil_l, Hhead, startswith_comma_head.
Qed.

(** X18. [json.loads] undoes [json.dumps]: a value whose dicts have
    distinct keys (any value that [json.loads] returned, with module
    outputs of that kind inserted) is printed by [parse_line] in a form
    that parses back to the same value, with the fuel that [loads] gives
    its decoder. *)
Theorem loads_undoes_dumps j : wf_json j → loads (dumps j) = Ok j.
Proof. apply loads_dumps_ok. Qed.

Lemma loads_undoes_dumps_witness :
  loads (dumps (JArr [JObj [("full_text", JStr ("a" +:+ dq +:+ "\b"));
                            ("n", JInt (-50))];
                      JNull; JBool true; JArr []]))
  = Ok (JArr [JObj [("full_text", JStr ("a" +:+ dq +:+ "\b"));
                    ("n", JInt (-50))];
              JNull; JBool true; JArr []]).
Proof.
  apply loads_undoes_dumps. cbn.
  split; [|done]. split; [|done].
  repeat constructor; set_solver.
Defined.

(** X19. What the consumer of the output reads is the merged array. When
    a tick line carries an array and the outputs of the registered modules
    are well formed, [parse_line] writes one frame; the frame has a comma
    prefix exactly when the line had one, and its payload parses to the
    array of the line with the module outputs inserted in registration
    order. *)
Theorem written_tick_decodes_to_the_merge mods line items inp out :
  Forall (λ m, wf_json (Module_.output m)) mods →
  loads (payload line) = Ok (JArr items) →
  ∃ frame,
    JSONIO.parse_line line (merge mods) (IOHandler.mk inp out)
    = (Ok tt, IOHandler.mk inp (out ++ [frame +:+ nl]))
    ∧ comma_prefix frame = comma_prefix line
    ∧ loads (payload frame)
      = Ok (JArr (insert_all (insertions mods) items)).
Proof.
  intros Hmods Hline.
  set (j := JArr (insert_all (insertions mods) items)).
  assert (Hj : wf_json j).
  { apply (merge_wf mods (JArr items)); [done| |apply merge_array].
    by apply loads_wf in Hline. }
  assert (Hframe : tick_frame (merge mods) line
                   = Ok (comma_prefix line +:+ dumps j)).
  { unfold tick_frame, comma_prefix, payload in *.
    destruct (startswith_comma line); rewrite Hline; cbn [result_bind];
      by rewrite merge_array. }
  exists (comma_prefix line +:+ dumps j).
  rewrite parse_line_frame, Hframe. split; [done|].
  destruct (frame_parts line j) as [-> ->].
  split; [done|by apply loads_dumps_ok].
Qed.

Lemma written_tick_decodes_to_the_merge_witness :
  ∃ frame,
    JSONIO.parse_line tick_x1 (merge [module_with (JStr "A") 0])
      (IOHandler.mk [] [])
    = (Ok tt, IOHandler.mk [] ([] ++ [frame +:+ nl]))
    ∧ comma_prefix frame = comma_prefix tick_x1
    ∧ loads (payload frame)
      = Ok (JArr (insert_all (insertions [module_with (JStr "A") 0])
                    [JObj [("x", JInt 1)]])).
Proof.
  apply (written_tick_decodes_to_the_merge
           [module_with (JStr "A") 0] _ [JObj [("x", JInt 1)]] [] []).
  - by repeat constructor.
  - vm_compute. reflexivity.
Defined.

(** X20. What [parse_line] writes is stable: when the outputs of the
    registered modules are well formed, the frame written for a tick is
    written back byte for byte by an engine with no modules that receives
    it as its tick line. *)
Theorem written_tick_is_a_fixed_point mods line inp out inp' out' :
  Forall (λ m, wf_json (Module_.output m)) mods →
  JSONIO.parse_line line (merge mods) (IOHandler.mk inp out)
  = (Ok tt, IOHandler.mk inp' out') →
  ∃ frame,
    inp' = inp ∧ out' = out ++ [frame +:+ nl]
    ∧ ∀ inp2 out2,
        JSONIO.parse_line frame (merge []) (IOHandler.mk inp2 out2)
        = (Ok tt, IOHandler.mk inp2 (out2 ++ [frame +:+ nl])).
Proof.
  intros Hmods. rewrite parse_line_frame.
  destruct (tick_frame (merge mods) line) as [frame|] eqn:Hframe; [|done].
  intros [= <- <-]. exists frame. split_and!; [done..|].
  intros inp2 out2. rewrite parse_line_frame.
  destruct (tick_frame_dumps mods line frame Hmods Hframe) as (j & Hj & ->).
  by rewrite tick_frame_fixed_point.
Qed.

Lemma written_tick_is_a_fixed_point_witness :
  ∃ frame,
    @nil in_event = [] ∧ [("," +:+ dumps (JArr [JStr "A"; JObj [("x", JInt 1)]])) +:+ nl] = [] ++ [frame +:+ nl]
    ∧ ∀ inp2 out2,
        JSONIO.parse_line frame (merge []) (IOHandler.mk inp2 out2)
        = (Ok tt, IOHandler.mk inp2 (out2 ++ [frame +:+ nl])).
Proof.
  apply (written_tick_is_a_fixed_point
           [module_with (JStr "A") 0] tick_x1 [] []).
  - by repeat constructor.
  - vm_compute. reflexivity.
Defined.

End WrittenTicks.
